(** * emate: the Kernel Polynomial Method pipeline

    A shallow embedding of [emate/hermitian/cupyops/kpm.py] (the moment
    engine [get_moments] and the reconstruction [apply_kernel]) and of
    [emate/hermitian/kpm.py] ([rescale_kpm], [pykpm], [cupykpm]).

    Arrays are lists.  Array arithmetic is idealised as exact arithmetic
    over the reals (complex numbers are pairs of reals), except where a
    statement is about binary64 values themselves; there the same
    definitions are instantiated with the primitive binary64 floats.  The
    exceptions the array library raises (index out of range, shapes that
    do not broadcast, a negative length) are results of type [result]. *)

From Stdlib Require Import Floats.
From Stdlib Require Import Reals Lra Lia List ZArith Bool Arith.
From Stdlib Require Import Permutation.
From Stdlib Require Import Epsilon.
Import ListNotations.

(** ** Exceptions and the error monad *)

Inductive exn : Type :=
| IndexError
| ValueError.

Inductive result (A : Type) : Type :=
| Ok (a : A)
| Raise (e : exn).

Arguments Ok {A} a.
Arguments Raise {A} e.

Definition bind {A B : Type} (m : result A) (k : A -> result B) : result B :=
  match m with
  | Ok a => k a
  | Raise e => Raise e
  end.

Notation "x <- m ;; k" := (bind m (fun x => k))
  (at level 61, m at next level, right associativity).
Notation "' p <- m ;; k" := (bind m (fun p => k))
  (at level 61, p pattern, m at next level, right associativity).

Definition raises {A : Type} (r : result A) : bool :=
  match r with
  | Ok _ => false
  | Raise _ => true
  end.

(** ** The arithmetic an array element supports

    Python's [rescale_kpm] is written against whatever its operands
    implement for [*], [+] and [/] (and [-], for the forward rescale);
    the class below is that interface. *)

Class Arith (A : Type) : Type := {
  add : A -> A -> A;
  sub : A -> A -> A;
  mul : A -> A -> A;
  div : A -> A -> A
}.

#[export] Instance Arith_R : Arith R :=
  {| add := Rplus; sub := Rminus; mul := Rmult; div := Rdiv |}.

#[export] Instance Arith_float : Arith float :=
  {| add := PrimFloat.add; sub := PrimFloat.sub;
     mul := PrimFloat.mul; div := PrimFloat.div |}.

(** ** [rescale_kpm] (hermitian/kpm.py, lines 49-53)

    [ek] and [rho] are arrays, the two scale factors are scalars: the
    operations broadcast the scalar over the array. *)

Definition rescale_kpm {A : Type} `{Arith A}
    (ek rho : list A) (scale_fact_a scale_fact_b : A) : list A * list A :=
  let ek := map (fun e => add (mul e scale_fact_a) scale_fact_b) ek in
  let rho := map (fun r => div r scale_fact_a) rho in
  (ek, rho).

(** The forward affine rescale of the abscissas the round trip is stated
    with: [(ek - scale_b) / scale_a]. *)

Definition rescale_abscissas {A : Type} `{Arith A}
    (ek : list A) (scale_a scale_b : A) : list A :=
  map (fun e => div (sub e scale_b) scale_a) ek.

(** ** Complex numbers over the reals *)

Record C : Type := mkC { re : R; im : R }.

Definition C0 : C := mkC 0 0.
Definition RtoC (x : R) : C := mkC x 0.
Definition Cadd (a b : C) : C := mkC (re a + re b) (im a + im b).
Definition Csub (a b : C) : C := mkC (re a - re b) (im a - im b).
Definition Cmul (a b : C) : C :=
  mkC (re a * re b - im a * im b) (re a * im b + im a * re b).
Definition Cconj (a : C) : C := mkC (re a) (- im a).

(** [exp(1j*t)] for a real [t]. *)
Definition Cexp_i (t : R) : C := mkC (cos t) (sin t).

(** ** One-dimensional arrays *)

Fixpoint map2 {A B D : Type} (f : A -> B -> D) (a : list A) (b : list B)
    : list D :=
  match a, b with
  | x :: a', y :: b' => f x y :: map2 f a' b'
  | _, _ => []
  end.

(** An elementwise binary operation on two 1-D arrays, with the array
    library's broadcasting: equal lengths, or one operand of length 1;
    any other pair of shapes raises [ValueError]. *)
Definition broadcast2 {A : Type} (f : A -> A -> A) (a b : list A)
    : result (list A) :=
  if length a =? length b then Ok (map2 f a b)
  else match a, b with
       | [x], _ => Ok (map (f x) b)
       | _, [y] => Ok (map (fun x => f x y) a)
       | _, _ => Raise ValueError
       end.

(** [a[k]] and [a[k] = v] for a non-negative index [k]. *)
Definition getitem {A : Type} (a : list A) (k : nat) : result A :=
  match nth_error a k with
  | Some x => Ok x
  | None => Raise IndexError
  end.

Fixpoint update {A : Type} (a : list A) (k : nat) (v : A) : list A :=
  match a, k with
  | [], _ => []
  | _ :: a', O => v :: a'
  | x :: a', S k' => x :: update a' k' v
  end.

Definition setitem {A : Type} (a : list A) (k : nat) (v : A)
    : result (list A) :=
  if k <? length a then Ok (update a k v) else Raise IndexError.

Definition zeros (n : nat) : list C := repeat C0 n.
Definition vconj (a : list C) : list C := map Cconj a.
Definition vscale (c : C) (a : list C) : list C := map (Cmul c) a.

(** The sum of the products of two lists of the same length. *)
Fixpoint dotu (a b : list C) : C :=
  match a, b with
  | x :: a', y :: b' => Cadd (Cmul x y) (dotu a' b')
  | _, _ => C0
  end.

(** [a.dot(b)] on two 1-D arrays. *)
Definition dot1 (a b : list C) : result C :=
  if length a =? length b then Ok (dotu a b) else Raise ValueError.

(** ** Matrices

    The sparse matrix is modelled by its dense rows (an entry that is not
    stored is zero) together with its number of columns. *)

Record matrix : Type := mkMatrix {
  ncols : nat;
  rows : list (list C)
}.

Definition matvec (H : matrix) (v : list C) : list C :=
  map (fun r => dotu r v) (rows H).

(** [H.dot(v)] for a 1-D array [v]. *)
Definition spdot (H : matrix) (v : list C) : result (list C) :=
  if ncols H =? length v then Ok (matvec H v) else Raise ValueError.

(** ** The random number generator

    The generator's state is the stream of uniform draws still to come;
    [rand n] takes the next [n] of them. *)

Definition rng : Type := nat -> R.

Definition rand (n : nat) (s : rng) : list R * rng :=
  (map s (seq 0 n), fun k => s (n + k)%nat).

(** ** The loop *)

Fixpoint for_each {S : Type} (body : S -> nat -> result S) (st : S)
    (range : list nat) : result S :=
  match range with
  | [] => Ok st
  | i :: range' => st' <- body st i ;; for_each body st' range'
  end.

(** [range(lo, hi)] *)
Definition range (lo hi : nat) : list nat := seq lo (hi - lo).

(** ** [get_moments] (hermitian/cupyops/kpm.py, lines 27-62)

    The dtype [cp_complex] of [mu] plays no part in exact arithmetic and
    is left out. *)

(** Line 48: the probe, one unit-modulus entry per uniform draw. *)
Definition random_probe (dimension : nat) (s : rng) : list C * rng :=
  let '(r, s') := rand dimension s in
  (map (fun t => Cexp_i (2 * PI * t)) r, s').

(** Lines 55-60: the body of the loop; the state is
    [(alpha0, alpha1, mu)]. *)
Definition moments_body (H_rescaled : matrix)
    (st : list C * list C * list C) (i_moment : nat)
    : result (list C * list C * list C) :=
  let '(alpha0, alpha1, mu) := st in
  h <- spdot H_rescaled alpha1 ;;
  alpha2 <- broadcast2 Csub (vscale (RtoC 2) h) alpha0 ;;
  d <- dot1 (vconj alpha1) alpha1 ;;
  mu0 <- getitem mu 0 ;;
  mu <- setitem mu (2 * i_moment) (Csub (Cmul (RtoC 2) d) mu0) ;;
  d' <- dot1 (vconj alpha2) alpha1 ;;
  mu1 <- getitem mu 1 ;;
  mu <- setitem mu (2 * i_moment + 1) (Csub (Cmul (RtoC 2) d') mu1) ;;
  Ok (alpha1, alpha2, mu).

(** Lines 49-62, for a probe [alpha0] already drawn. *)
Definition moments_of_probe (H_rescaled : matrix) (num_moments : nat)
    (alpha0 : list C) : result (list C) :=
  alpha1 <- spdot H_rescaled alpha0 ;;
  let mu := zeros num_moments in
  d0 <- dot1 (vconj alpha0) alpha0 ;;
  mu <- setitem mu 0 d0 ;;
  d1 <- dot1 (vconj alpha0) alpha1 ;;
  mu <- setitem mu 1 d1 ;;
  '(_, _, mu) <- for_each (moments_body H_rescaled) (alpha0, alpha1, mu)
                   (range 1 (num_moments / 2)) ;;
  Ok mu.

Definition get_moments (H_rescaled : matrix) (num_moments dimension : nat)
    (s : rng) : result (list C * rng) :=
  let '(alpha0, s') := random_probe dimension s in
  mu <- moments_of_probe H_rescaled num_moments alpha0 ;;
  Ok (mu, s').

(** ** [apply_kernel] (hermitian/cupyops/kpm.py, lines 65-97) *)

(** The moments handed to [apply_kernel]: the 2-D array of one row per
    probe, or a 1-D array (what [cp.array] builds from an empty list of
    rows). *)
Inductive batch : Type :=
| Batch1 (v : list C)
| Batch2 (width : nat) (rows : list (list C)).

(** A real array of rank 0 or 1. *)
Inductive arr : Type :=
| Scalar (x : R)
| Vec (v : list R).

(** [cp.sum(moments.real, axis=0)] *)
Definition sum_real_axis0 (moments : batch) : arr :=
  match moments with
  | Batch1 v => Scalar (fold_left Rplus (map re v) 0%R)
  | Batch2 width rows =>
      Vec (fold_left (map2 Rplus) (map (map re) rows) (repeat 0%R width))
  end.

Definition arr_div (a : arr) (d : R) : arr :=
  match a with
  | Scalar x => Scalar (x / d)
  | Vec v => Vec (map (fun x => x / d)%R v)
  end.

(** [moments*kernel] *)
Definition arr_mul (a : arr) (kernel : list R) : result arr :=
  match a with
  | Scalar x => Ok (Vec (map (Rmult x) kernel))
  | Vec v => v' <- broadcast2 Rmult v kernel ;; Ok (Vec v')
  end.

(** [cp.zeros(num_points)]: a negative length is refused. *)
Definition real_zeros (num_points : Z) : result (list R) :=
  if (num_points <? 0)%Z then Raise ValueError
  else Ok (repeat 0%R (Z.to_nat num_points)).

(** [a[0:stop] = v]: the slice has [min stop (len a)] elements; the
    value must have that many, or broadcast to it. *)
Definition set_prefix (a : list R) (stop : nat) (v : arr) : result (list R) :=
  let len := Nat.min stop (length a) in
  match v with
  | Scalar x => Ok (repeat x len ++ skipn len a)
  | Vec v =>
      if length v =? len then Ok (v ++ skipn len a)
      else match v with
           | [x] => Ok (repeat x len ++ skipn len a)
           | _ => Raise ValueError
           end
  end.

(** [cp.arange(0, num_points)] *)
Definition arange (num_points : Z) : list R :=
  map INR (seq 0 (Z.to_nat num_points)).

(** [dctIII] is imported from [emate.utils.cupyops.signal]; here it is a
    parameter.  The arithmetic is exact; what lines 92-93 give on
    binary64 values is [kpm_node64] and [kpm_weight64] below. *)
Definition apply_kernel (dctIII : list R -> list R)
    (moments : batch) (kernel : option (list R))
    (dimension num_moments num_vecs : nat) (extra_points : Z)
    : result (list R * list R) :=
  let moments := sum_real_axis0 moments in
  let moments := arr_div (arr_div moments (INR num_vecs)) (INR dimension) in
  let num_points := (extra_points + Z.of_nat num_moments)%Z in
  moments <- match kernel with
             | Some kernel => arr_mul moments kernel
             | None => Ok moments
             end ;;
  mu_ext <- real_zeros num_points ;;
  mu_ext <- set_prefix mu_ext num_moments moments ;;
  let smooth_moments := dctIII mu_ext in
  let points := arange num_points in
  let ek := map (fun p => cos (PI * (p + 0.5) / IZR num_points)) points in
  let gk := map (fun e => PI * sqrt (1 - e ^ 2))%R ek in
  rho <- broadcast2 Rdiv smooth_moments gk ;;
  Ok (ek, rho).

(** Lines 79-85 of [apply_kernel] on their own: the moments summed over
    the probes, averaged, and multiplied by the kernel when there is
    one. *)
Definition damped_moments (moments : batch) (kernel : option (list R))
    (dimension num_vecs : nat) : result arr :=
  let moments := sum_real_axis0 moments in
  let moments := arr_div (arr_div moments (INR num_vecs)) (INR dimension) in
  match kernel with
  | Some kernel => arr_mul moments kernel
  | None => Ok moments
  end.

(** ** The pipelines (hermitian/kpm.py) *)

(** [if (lmin is None) or (lmax is None): lmin, lmax = get_bounds(H)] *)
Definition bounds_or (get_bounds : matrix -> result (R * R)) (H : matrix)
    (lmin lmax : option R) : result (R * R) :=
  match lmin, lmax with
  | Some lo, Some hi => Ok (lo, hi)
  | _, _ => get_bounds H
  end.

Inductive dtype : Type :=
| float32
| float64
| complex64
| complex128.

(** What [cupykpm] imports from [emate.linalg], [emate.linalg.misc] and
    [emate.utils.cupyops], and the cast of the array library.
    [cupy_jackson] takes [num_moments] and [precision]; [rescale_cupy]
    takes the matrix, the two bounds and [epsilon]. *)
Record cupy_env : Type := {
  cupy_dctIII : list R -> list R;
  cupy_get_bounds : matrix -> result (R * R);
  rescale_cupy : matrix -> R -> R -> R -> result (matrix * R * R);
  cupy_jackson : nat -> nat -> list R;
  astype : dtype -> C -> C
}.

(** Lines 208-211: one call of [get_moments] per probe, the generator's
    state threaded through. *)
Fixpoint moments_rows (H : matrix) (num_moments dimension : nat)
    (num_vecs : nat) (s : rng) : result (list (list C) * rng) :=
  match num_vecs with
  | O => Ok ([], s)
  | S n =>
      '(mu, s) <- get_moments H num_moments dimension s ;;
      '(rest, s) <- moments_rows H num_moments dimension n s ;;
      Ok (mu :: rest, s)
  end.

(** [cp.array] of a list of 1-D arrays. *)
Definition cp_array (l : list (list C)) : batch :=
  match l with
  | [] => Batch1 []
  | r :: _ => Batch2 (length r) l
  end.

(** [cupykpm], lines 181-224. *)
Definition cupykpm (E : cupy_env) (H : matrix)
    (num_moments num_vecs : nat) (extra_points : Z) (precision : nat)
    (lmin lmax : option R) (epsilon : R) (s : rng)
    : result ((list R * list R) * rng) :=
  let dimension := length (rows H) in
  '(lmin, lmax) <- bounds_or (cupy_get_bounds E) H lmin lmax ;;
  let H := mkMatrix (ncols H) (map (map (astype E complex64)) (rows H)) in
  '(H, scale_fact_a, scale_fact_b) <- rescale_cupy E H lmin lmax epsilon ;;
  '(moments, s) <- moments_rows H num_moments dimension num_vecs s ;;
  let moments := cp_array moments in
  let kernel0 := cupy_jackson E num_moments 32 in
  '(ek, rho) <- apply_kernel (cupy_dctIII E) moments (Some kernel0)
                  dimension num_moments num_vecs extra_points ;;
  let '(ek, rho) := rescale_kpm ek rho scale_fact_a scale_fact_b in
  Ok ((rho, ek), s).

(** What [pykpm] imports from [emate.linalg], [emate.utils.tfops] and
    [emate.hermitian.tfops.kpm], and the calls of the array and graph
    libraries; [tensor] is the type of the graph's moment tensor.
    [rescale_matrix] takes the matrix, the two bounds and an optional
    [epsilon]; [normal_complex] takes the shape and the precision;
    [tf_get_moments] takes the dtype of the placeholder, the matrix,
    [num_vecs], [num_moments] and the probes; [tf_jackson] takes
    [num_moments] and [precision]. *)
Record tf_env (tensor : Type) : Type := {
  tf_get_bounds : matrix -> result (R * R);
  rescale_matrix : matrix -> R -> R -> option R -> result (matrix * R * R);
  iscomplexobj : matrix -> bool;
  np_astype : dtype -> C -> C;
  normal_complex : nat * nat -> nat -> rng -> list (list C) * rng;
  tf_get_moments :
    dtype -> matrix -> nat -> nat -> list (list C) -> result tensor;
  tf_jackson : nat -> nat -> list R;
  tf_cast : dtype -> tensor -> tensor;
  tf_apply_kernel :
    tensor -> list R -> nat -> nat -> nat -> Z -> result (list R * list R)
}.

Arguments tf_get_bounds {tensor} _.
Arguments rescale_matrix {tensor} _.
Arguments iscomplexobj {tensor} _.
Arguments np_astype {tensor} _.
Arguments normal_complex {tensor} _.
Arguments tf_get_moments {tensor} _.
Arguments tf_jackson {tensor} _.
Arguments tf_cast {tensor} _.
Arguments tf_apply_kernel {tensor} _.

(** [pykpm], lines 55-179.  The device placement and the unused
    [swap_memory_while] flag are left out; building the graph and running
    the session are the calls of the environment. *)
Definition pykpm {tensor : Type} (E : tf_env tensor) (H : matrix)
    (num_moments num_vecs : nat) (extra_points : Z) (precision : nat)
    (lmin lmax : option R) (epsilon : R) (s : rng)
    : result ((list R * list R) * rng) :=
  '(lmin, lmax) <- bounds_or (tf_get_bounds E) H lmin lmax ;;
  '(H, scale_fact_a, scale_fact_b) <- rescale_matrix E H lmin lmax None ;;
  let '(np_type, tf_type) :=
    if iscomplexobj E H then
      if precision =? 32 then (complex64, complex64)
      else (complex128, complex128)
    else
      if precision =? 32 then (float32, float32)
      else (float64, float64) in
  let sp_values := map (map (np_astype E np_type)) (rows H) in
  let dimension := length (rows H) in
  let H := mkMatrix (ncols H) sp_values in
  let '(alpha0, s) := normal_complex E (dimension, num_vecs) precision s in
  moments <- tf_get_moments E tf_type H num_vecs num_moments alpha0 ;;
  let kernel0 := tf_jackson E num_moments 32 in
  let moments :=
    if precision =? 64 then tf_cast E float32 moments else moments in
  '(ek, rho) <- tf_apply_kernel E moments kernel0 dimension num_moments
                  num_vecs extra_points ;;
  let '(ek, rho) := rescale_kpm ek rho scale_fact_a scale_fact_b in
  Ok ((ek, rho), s).

(** ** Reference definitions for the moment engine *)

(** [conj(a)·b] *)
Definition inner (a b : list C) : C := dotu (vconj a) b.

(** A square matrix of dimension [N]. *)
Definition square (N : nat) (H : matrix) : Prop :=
  ncols H = N /\ length (rows H) = N /\
  Forall (fun r => length r = N) (rows H).

Definition entry (H : matrix) (i j : nat) : C := nth j (nth i (rows H) []) C0.

(** [H] equals its conjugate transpose. *)
Definition hermitian (N : nat) (H : matrix) : Prop :=
  square N H /\
  forall i j, (i < N)%nat -> (j < N)%nat -> entry H i j = Cconj (entry H j i).

(** The vectors the loop walks through: [(a_k, a_(k+1))] with [a_0 = x],
    [a_1 = H x] and [a_(k+2) = 2 H a_(k+1) - a_k]. *)
Fixpoint cheb_pair (H : matrix) (x : list C) (k : nat) : list C * list C :=
  match k with
  | O => (x, matvec H x)
  | S k' =>
      let '(a, b) := cheb_pair H x k' in
      (b, map2 Csub (vscale (RtoC 2) (matvec H b)) a)
  end.

Definition cheb_vec (H : matrix) (x : list C) (k : nat) : list C :=
  fst (cheb_pair H x k).

(** What the engine stores at index [k]. *)
Definition doubling_moment (H : matrix) (x : list C) (k : nat) : C :=
  if k =? 0 then inner x x
  else if k =? 1 then inner x (matvec H x)
  else if Nat.even k then
    Csub (Cmul (RtoC 2)
            (inner (cheb_vec H x (k / 2)) (cheb_vec H x (k / 2))))
         (inner x x)
  else
    Csub (Cmul (RtoC 2)
            (inner (cheb_vec H x (k / 2 + 1)) (cheb_vec H x (k / 2))))
         (inner x (matvec H x)).

(** The state of the loop on entry to iteration [i], for a probe [x] and
    [n] moments: the two vectors are [a_(i-1)] and [a_i], the slots below
    [2 i] are written, the others still hold the zero they were created
    with. *)
Definition loop_inv (H : matrix) (x : list C) (n i : nat)
    (st : list C * list C * list C) : Prop :=
  let '(alpha0, alpha1, mu) := st in
  alpha0 = cheb_vec H x (i - 1) /\ alpha1 = cheb_vec H x i /\
  length mu = n /\
  forall k, (k < n)%nat ->
    nth k mu C0 = if k <? 2 * i then doubling_moment H x k else C0.

(** [sum of f i for i < n] *)
Fixpoint Csum (f : nat -> C) (n : nat) : C :=
  match n with
  | O => C0
  | S n' => Cadd (Csum f n') (f n')
  end.

(** The squared Euclidean norm of a complex vector. *)
Definition norm2 (x : list C) : R :=
  fold_right (fun c acc => re c * re c + im c * im c + acc)%R 0%R x.

(** The distance between two indices. *)
Definition dist (i j : nat) : nat := (i - j) + (j - i).

(** The Chebyshev polynomials of the first kind, by their coefficients
    (lowest degree first): [T_0 = 1], [T_1 = X],
    [T_(k+2) = 2 X T_(k+1) - T_k]. *)
Fixpoint padd (p q : list Z) : list Z :=
  match p, q with
  | [], _ => q
  | _, [] => p
  | a :: p', b :: q' => (a + b)%Z :: padd p' q'
  end.

Definition pscale (c : Z) (p : list Z) : list Z := map (Z.mul c) p.
Definition pshift (p : list Z) : list Z := 0%Z :: p.

Fixpoint chebT_pair (k : nat) : list Z * list Z :=
  match k with
  | O => ([1%Z], [0%Z; 1%Z])
  | S k' =>
      let '(a, b) := chebT_pair k' in
      (b, padd (pscale 2 (pshift b)) (pscale (-1) a))
  end.

Definition chebT (k : nat) : list Z := fst (chebT_pair k).

(** [p(H) x], the polynomial [p] of the matrix [H] applied to [x]:
    [(c + X q)(H) x = c x + H (q(H) x)]. *)
Fixpoint poly_apply (p : list Z) (H : matrix) (x : list C) : list C :=
  match p with
  | [] => zeros (length x)
  | c :: q =>
      map2 Cadd (vscale (RtoC (IZR c)) x) (matvec H (poly_apply q H x))
  end.

(** The direct evaluation [conj(x)·T_k(H)·x]. *)
Definition direct_moment (H : matrix) (x : list C) (k : nat) : C :=
  inner x (poly_apply (chebT k) H x).

(** ** Reference definitions for the reconstruction *)

(** The sum over the probes of the real part of moment [k]. *)
Definition col_sum (rows : list (list C)) (k : nat) : R :=
  fold_right (fun r acc => re (nth k r C0) + acc)%R 0%R rows.

(** Moment [k], averaged over the probes and the dimension, then damped
    by the kernel when there is one. *)
Definition damped_moment (rows : list (list C)) (kernel : option (list R))
    (dimension num_vecs : nat) (k : nat) : R :=
  let avg := (col_sum rows k / INR num_vecs / INR dimension)%R in
  match kernel with
  | Some ker => (avg * nth k ker 0)%R
  | None => avg
  end.

(** The Chebyshev-Gauss nodes and their weights. *)
Definition kpm_node (num_points j : nat) : R :=
  cos (PI * (INR j + 0.5) / INR num_points).

Definition kpm_weight (e : R) : R := (PI * sqrt (1 - e ^ 2))%R.

(** The reconstruction in the words of its description: average, damp,
    pad with zeros to [num_points], transform, divide by the weights. *)
Definition reconstruct (dctIII : list R -> list R)
    (rows : list (list C)) (kernel : option (list R))
    (dimension num_moments num_vecs : nat) (extra_points : Z)
    : list R * list R :=
  let num_points := Z.to_nat (extra_points + Z.of_nat num_moments) in
  let padded :=
    map (fun k => if k <? num_moments
                  then damped_moment rows kernel dimension num_vecs k
                  else 0%R) (seq 0 num_points) in
  let smooth_moments := dctIII padded in
  (map (kpm_node num_points) (seq 0 num_points),
   map (fun j => nth j smooth_moments 0 / kpm_weight (kpm_node num_points j))%R
       (seq 0 num_points)).

(** ** Environments with an argument pinned *)

(** The environment of [cupykpm] with the dtype of the cast fixed to
    [complex64] and the precision of the kernel fixed to 32, whatever is
    asked for. *)
Definition pinned_precision (E : cupy_env) : cupy_env :=
  {| cupy_dctIII := cupy_dctIII E;
     cupy_get_bounds := cupy_get_bounds E;
     rescale_cupy := rescale_cupy E;
     cupy_jackson := fun n _ => cupy_jackson E n 32;
     astype := fun _ => astype E complex64 |}.

(** The environment of [pykpm] with [rescale_matrix] always called
    without [epsilon], whatever is passed. *)
Definition default_epsilon {tensor : Type} (E : tf_env tensor)
    : tf_env tensor :=
  {| tf_get_bounds := tf_get_bounds E;
     rescale_matrix := fun H lo hi _ => rescale_matrix E H lo hi None;
     iscomplexobj := iscomplexobj E;
     np_astype := np_astype E;
     normal_complex := normal_complex E;
     tf_get_moments := tf_get_moments E;
     tf_jackson := tf_jackson E;
     tf_cast := tf_cast E;
     tf_apply_kernel := tf_apply_kernel E |}.

(** ** A small instance *)

Definition example_H : matrix :=
  mkMatrix 2 [[C0; mkC 0 (1 / 2)]; [mkC 0 (- (1 / 2)); C0]].

Definition example_probe : list C := [mkC 1 0; mkC 0 1].

Definition example_rng : rng := fun _ => 0%R.

Definition example_env : cupy_env :=
  {| cupy_dctIII := fun v => v;
     cupy_get_bounds := fun _ => Ok (-1, 1)%R;
     rescale_cupy := fun H _ _ _ => Ok (H, 1%R, 0%R);
     cupy_jackson := fun n _ => repeat 1%R n;
     astype := fun _ c => c |}.

(** ** Further reference definitions *)

Definition C1 : C := mkC 1 0.

(** The identity matrix of dimension [N]. *)
Definition identity_matrix (N : nat) : matrix :=
  mkMatrix N
    (map (fun i => map (fun j => if i =? j then C1 else C0) (seq 0 N))
         (seq 0 N)).

(** ** Lines 92-93 of [apply_kernel] on binary64 values

    The real value of a binary64 number, by its sign, mantissa and
    exponent. *)

Definition pow2 (e : Z) : R :=
  match e with
  | Z0 => 1%R
  | Zpos p => IZR (Z.pow_pos 2 p)
  | Zneg p => (/ IZR (Z.pow_pos 2 p))%R
  end.

Definition SF2R (x : spec_float) : R :=
  match x with
  | S754_finite s m e => ((if s then -1 else 1) * IZR (Zpos m) * pow2 e)%R
  | _ => 0%R
  end.

Definition SF_finite (x : spec_float) : bool :=
  match x with
  | S754_zero _ | S754_finite _ _ _ => true
  | _ => false
  end.

(** The finite binary64 numbers. *)
Definition binary64 (x : spec_float) : Prop :=
  SpecFloat.valid_binary prec emax x = true /\ SF_finite x = true.

(** [x] is a binary64 number nearest to the real [r]. *)
Definition nearest64 (r : R) (x : spec_float) : Prop :=
  binary64 x /\
  forall y, binary64 y -> (Rabs (SF2R x - r) <= Rabs (SF2R y - r))%R.

(** Rounding to a nearest binary64 number. *)
Definition round64 (r : R) : float :=
  SF2Prim (epsilon (inhabits (S754_zero false)) (nearest64 r)).

Definition B2R (x : float) : R := SF2R (Prim2SF x).

(** The cosine of the array library on a binary64 value, taken as
    correctly rounded: a binary64 number nearest to the exact cosine. *)
Definition cos64 (x : float) : float := round64 (cos (B2R x)).

(** [cp.pi] *)
Definition pi64 : float := 0x1.921fb54442d18p+1%float.

(** Line 92 for one point: [cos(pi*(j+0.5)/num_points)], the integers
    [j] and [num_points] converted to binary64. *)
Definition kpm_node64 (num_points j : float) : float :=
  cos64 (pi64 * (j + 0.5) / num_points)%float.

(** Line 93 for one point: [pi*sqrt(1.-ek**2)]. *)
Definition kpm_weight64 (e : float) : float :=
  (pi64 * PrimFloat.sqrt (1 - e * e))%float.

(** The binary64 number 1. *)
Definition one_sf : spec_float := S754_finite false 4503599627370496 (-52).

(** ** Theorems about [rescale_kpm] *)

Section RescaleKpm.

Open Scope R_scope.

Lemma rescale_roundtrip_pointwise (a b : R) (ek : list R) :
  a <> 0 ->
  map (fun e => e * a + b) (map (fun e => (e - b) / a) ek) = ek.
Proof.
  intros Ha. rewrite map_map.
  induction ek as [|e ek IH]; simpl; [reflexivity|].
  rewrite IH. f_equal. field. exact Ha.
Qed.

(** C3, as amended.  [rescale_kpm] returns exactly
    [(ek*scale_a + scale_b, rho/scale_a)], element by element, on reals
    and on binary64 values alike, and has no state; over exact real
    arithmetic, with [scale_a <> 0], composing it with the forward
    rescale [(ek - scale_b)/scale_a] gives [ek] back. *)
Theorem rescale_kpm_affine_inverse (ek rho : list R) (a b : R) :
  a <> 0 ->
  rescale_kpm ek rho a b
    = (map (fun e => e * a + b) ek, map (fun r => r / a) rho)
  /\ fst (rescale_kpm (rescale_abscissas ek a b) rho a b) = ek
  /\ forall (ek' rho' : list float) (a' b' : float),
       rescale_kpm ek' rho' a' b'
       = (map (fun e => (e * a' + b')%float) ek',
          map (fun r => (r / a')%float) rho').
Proof.
  intros Ha. split; [reflexivity|]. split; [|reflexivity].
  unfold rescale_kpm, rescale_abscissas; simpl.
  apply rescale_roundtrip_pointwise; exact Ha.
Qed.

Lemma rescale_kpm_affine_inverse_witness :
  2 <> 0 /\
  fst (rescale_kpm (rescale_abscissas [1; 3] 2 1) [4] 2 1) = [1; 3].
Proof.
  split; [lra|].
  apply (proj1 (proj2 (rescale_kpm_affine_inverse [1; 3] [4] 2 1
                         ltac:(lra)))).
Defined.

End RescaleKpm.

(** C3, as stated, fails on binary64 values: with finite inputs and a
    non-zero scale the round trip misses [ek] by a rounding error, and a
    large abscissa overflows to infinity. *)
Lemma rescale_kpm_binary64_counterexample :
  fst (rescale_kpm (rescale_abscissas [1%float] 49%float 0%float)
                   [1%float] 49%float 0%float)
    <> [1%float]
  /\ (forallb PrimFloat.is_finite [0x1p1023%float; 1%float; 4%float; 0%float]
        = true
      /\ PrimFloat.eqb 4%float 0%float = false
      /\ forallb PrimFloat.is_finite
           (fst (rescale_kpm [0x1p1023%float] [1%float] 4%float 0%float))
         = false).
Proof.
  split.
  - vm_compute. discriminate.
  - repeat split; vm_compute; reflexivity.
Qed.

Lemma bind_Ok {A B : Type} (a : A) (k : A -> result B) : bind (Ok a) k = k a.
Proof. reflexivity. Qed.

Ltac ok_step := rewrite bind_Ok; cbv beta.

(** ** Arrays: lengths, reads and writes *)

Section ArrayFacts.

Context {A : Type}.

Lemma map2_length {B D : Type} (f : A -> B -> D) (a : list A) (b : list B) :
  length a = length b -> length (map2 f a b) = length a.
Proof.
  revert b. induction a as [|x a IH]; intros [|y b] Hl; simpl in *;
    try discriminate; auto.
Qed.

Lemma nth_map2 (f : A -> A -> A) (a b : list A) (d : A) (k : nat) :
  length a = length b -> (k < length a)%nat ->
  nth k (map2 f a b) d = f (nth k a d) (nth k b d).
Proof.
  revert b k. induction a as [|x a IH]; intros [|y b] k Hl Hk; simpl in *;
    try discriminate; try lia.
  destruct k as [|k]; [reflexivity|]. apply IH; lia.
Qed.

Lemma broadcast2_same (f : A -> A -> A) (a b : list A) :
  length a = length b -> broadcast2 f a b = Ok (map2 f a b).
Proof.
  intros Hl. unfold broadcast2. rewrite Hl, Nat.eqb_refl. reflexivity.
Qed.

Lemma update_length (a : list A) (k : nat) (v : A) :
  length (update a k v) = length a.
Proof.
  revert k. induction a as [|x a IH]; intros [|k]; simpl; auto.
Qed.

Lemma nth_update (a : list A) (k j : nat) (v d : A) :
  (k < length a)%nat ->
  nth j (update a k v) d = if j =? k then v else nth j a d.
Proof.
  revert k j. induction a as [|x a IH]; intros k j Hk; simpl in *; [lia|].
  destruct k as [|k], j as [|j]; simpl; try reflexivity.
  apply IH. lia.
Qed.

Lemma setitem_ok (a : list A) (k : nat) (v : A) :
  (k < length a)%nat -> setitem a k v = Ok (update a k v).
Proof.
  intros Hk. unfold setitem.
  destruct (Nat.ltb_spec k (length a)); [reflexivity|lia].
Qed.

Lemma getitem_ok (a : list A) (k : nat) (d : A) :
  (k < length a)%nat -> getitem a k = Ok (nth k a d).
Proof.
  intros Hk. unfold getitem.
  destruct (nth_error a k) eqn:E.
  - f_equal. symmetry. apply nth_error_nth. exact E.
  - apply nth_error_None in E. lia.
Qed.

Lemma nth_map_seq (f : nat -> A) (n k : nat) (d : A) :
  (k < n)%nat -> nth k (map f (seq 0 n)) d = f k.
Proof.
  intros Hk.
  rewrite (nth_indep _ d (f 0%nat)) by (rewrite length_map, length_seq; exact Hk).
  rewrite map_nth, seq_nth by exact Hk. reflexivity.
Qed.

End ArrayFacts.

Lemma zeros_length (n : nat) : length (zeros n) = n.
Proof. apply repeat_length. Qed.

Lemma nth_zeros (n k : nat) : nth k (zeros n) C0 = C0.
Proof.
  unfold zeros. revert k. induction n as [|n IH]; intros [|k]; simpl; auto.
Qed.

Lemma vconj_length (a : list C) : length (vconj a) = length a.
Proof. apply length_map. Qed.

Lemma vscale_length (c : C) (a : list C) : length (vscale c a) = length a.
Proof. apply length_map. Qed.

Lemma matvec_length (H : matrix) (v : list C) :
  length (matvec H v) = length (rows H).
Proof. apply length_map. Qed.

Lemma dot1_same (a b : list C) :
  length a = length b -> dot1 (vconj a) b = Ok (inner a b).
Proof.
  intros Hl. unfold dot1. rewrite vconj_length, Hl, Nat.eqb_refl. reflexivity.
Qed.

Lemma spdot_ok (N : nat) (H : matrix) (v : list C) :
  square N H -> length v = N -> spdot H v = Ok (matvec H v).
Proof.
  intros [Hc _] Hv. unfold spdot. rewrite Hc, Hv, Nat.eqb_refl. reflexivity.
Qed.

(** ** The vectors of the recursion *)

Lemma cheb_pair_snd (H : matrix) (x : list C) (k : nat) :
  snd (cheb_pair H x k) = cheb_vec H x (S k).
Proof.
  unfold cheb_vec. simpl. destruct (cheb_pair H x k); reflexivity.
Qed.

Lemma cheb_vec_0 (H : matrix) (x : list C) : cheb_vec H x 0 = x.
Proof. reflexivity. Qed.

Lemma cheb_vec_1 (H : matrix) (x : list C) : cheb_vec H x 1 = matvec H x.
Proof. reflexivity. Qed.

Lemma cheb_vec_SS (H : matrix) (x : list C) (k : nat) :
  cheb_vec H x (S (S k))
  = map2 Csub (vscale (RtoC 2) (matvec H (cheb_vec H x (S k))))
         (cheb_vec H x k).
Proof.
  rewrite <- (cheb_pair_snd H x (S k)). simpl.
  rewrite <- (cheb_pair_snd H x k). unfold cheb_vec.
  destruct (cheb_pair H x k); reflexivity.
Qed.

Lemma cheb_vec_length (N : nat) (H : matrix) (x : list C) (k : nat) :
  square N H -> length x = N ->
  length (cheb_vec H x k) = N /\ length (cheb_vec H x (S k)) = N.
Proof.
  intros Hsq Hx. destruct Hsq as (Hc & Hr & Hrows).
  induction k as [|k [IH0 IH1]].
  - split; [exact Hx|]. rewrite cheb_vec_1, matvec_length. exact Hr.
  - split; [exact IH1|]. rewrite cheb_vec_SS, map2_length.
    + rewrite vscale_length, matvec_length. exact Hr.
    + rewrite vscale_length, matvec_length. lia.
Qed.

(** ** The loop of [get_moments] *)

Lemma doubling_moment_even (H : matrix) (x : list C) (i : nat) :
  (1 <= i)%nat ->
  doubling_moment H x (2 * i)
  = Csub (Cmul (RtoC 2) (inner (cheb_vec H x i) (cheb_vec H x i)))
         (inner x x).
Proof.
  intros Hi. unfold doubling_moment.
  destruct (Nat.eqb_spec (2 * i) 0); [lia|].
  destruct (Nat.eqb_spec (2 * i) 1); [lia|].
  replace (Nat.even (2 * i)) with true
    by (symmetry; apply Nat.even_spec; exists i; reflexivity).
  replace (2 * i / 2)%nat with i
    by (symmetry; rewrite Nat.mul_comm; apply Nat.div_mul; lia).
  reflexivity.
Qed.

Lemma doubling_moment_odd (H : matrix) (x : list C) (i : nat) :
  (1 <= i)%nat ->
  doubling_moment H x (2 * i + 1)
  = Csub (Cmul (RtoC 2) (inner (cheb_vec H x (i + 1)) (cheb_vec H x i)))
         (inner x (matvec H x)).
Proof.
  intros Hi. unfold doubling_moment.
  destruct (Nat.eqb_spec (2 * i + 1) 0); [lia|].
  destruct (Nat.eqb_spec (2 * i + 1) 1); [lia|].
  replace (Nat.even (2 * i + 1)) with false.
  2:{ symmetry. rewrite <- Nat.negb_odd.
      replace (Nat.odd (2 * i + 1)) with true; [reflexivity|].
      symmetry. apply Nat.odd_spec. exists i. reflexivity. }
  replace ((2 * i + 1) / 2)%nat with i.
  2:{ apply (Nat.div_unique (2 * i + 1) 2 i 1); lia. }
  reflexivity.
Qed.

Section MomentLoop.

Variables (N : nat) (H : matrix) (x : list C) (n : nat).
Hypothesis Hsq : square N H.
Hypothesis Hx : length x = N.

Lemma moments_body_inv (i : nat) (st : list C * list C * list C) :
  (1 <= i)%nat -> (2 * i + 1 < n)%nat -> loop_inv H x n i st ->
  exists st', moments_body H st i = Ok st' /\ loop_inv H x n (S i) st'.
Proof.
  intros Hi Hn. destruct st as [[alpha0 alpha1] mu].
  intros (H0 & H1 & Hlen & Hmu).
  destruct i as [|j]; [lia|]. simpl in H0. rewrite Nat.sub_0_r in H0.
  destruct (cheb_vec_length N H x j Hsq Hx) as [L0 L1].
  destruct (cheb_vec_length N H x (S j) Hsq Hx) as [_ L2].
  assert (La0 : length alpha0 = N) by (subst; exact L0).
  assert (La1 : length alpha1 = N) by (subst; exact L1).
  assert (Lh : length (vscale (RtoC 2) (matvec H alpha1)) = length alpha0).
  { rewrite vscale_length, matvec_length. destruct Hsq as (_ & Hr & _). lia. }
  set (alpha2 := map2 Csub (vscale (RtoC 2) (matvec H alpha1)) alpha0).
  assert (E2 : alpha2 = cheb_vec H x (S (S j))).
  { unfold alpha2. rewrite cheb_vec_SS. subst. reflexivity. }
  assert (La2 : length alpha2 = N) by (rewrite E2; exact L2).
  set (v0 := Csub (Cmul (RtoC 2) (inner alpha1 alpha1)) (nth 0 mu C0)).
  set (mu' := update mu (2 * S j) v0).
  set (v1 := Csub (Cmul (RtoC 2) (inner alpha2 alpha1)) (nth 1 mu' C0)).
  exists (alpha1, alpha2, update mu' (2 * S j + 1) v1).
  assert (Lmu' : length mu' = n) by (unfold mu'; rewrite update_length; lia).
  split.
  - unfold moments_body.
    rewrite (spdot_ok N) by assumption. ok_step.
    rewrite broadcast2_same by exact Lh. ok_step. fold alpha2.
    rewrite dot1_same by reflexivity. ok_step.
    rewrite (getitem_ok mu 0 C0) by lia. ok_step.
    rewrite setitem_ok by lia. ok_step. fold v0. fold mu'.
    rewrite dot1_same by lia. ok_step.
    rewrite (getitem_ok mu' 1 C0) by lia. ok_step.
    rewrite setitem_ok by lia. ok_step.
    reflexivity.
  - unfold loop_inv. replace (S (S j) - 1)%nat with (S j) by lia.
    repeat split.
    + exact H1.
    + exact E2.
    + rewrite update_length. exact Lmu'.
    + intros k Hk.
      rewrite nth_update by lia.
      destruct (Nat.eqb_spec k (2 * S j + 1)) as [->|Hne1].
      * destruct (Nat.ltb_spec (2 * S j + 1) (2 * S (S j))); [|lia].
        rewrite doubling_moment_odd by lia.
        unfold v1, mu'. rewrite nth_update by lia.
        destruct (Nat.eqb_spec 1 (2 * S j)); [lia|].
        rewrite (Hmu 1%nat) by lia.
        destruct (Nat.ltb_spec 1 (2 * S j)); [|lia].
        rewrite E2, H1. replace (S j + 1)%nat with (S (S j)) by lia.
        reflexivity.
      * unfold mu'. rewrite nth_update by lia.
        destruct (Nat.eqb_spec k (2 * S j)) as [->|Hne0].
        -- destruct (Nat.ltb_spec (2 * S j) (2 * S (S j))); [|lia].
           rewrite doubling_moment_even by lia.
           unfold v0. rewrite (Hmu 0%nat) by lia.
           destruct (Nat.ltb_spec 0 (2 * S j)); [|lia].
           rewrite H1. reflexivity.
        -- rewrite Hmu by lia.
           destruct (Nat.ltb_spec k (2 * S j)),
                    (Nat.ltb_spec k (2 * S (S j))); try reflexivity; lia.
Qed.

Lemma for_each_inv (cnt i : nat) (st : list C * list C * list C) :
  (1 <= i)%nat -> (2 * (i + cnt) <= n)%nat -> loop_inv H x n i st ->
  exists st',
    for_each (moments_body H) st (seq i cnt) = Ok st' /\
    loop_inv H x n (i + cnt) st'.
Proof.
  revert i st. induction cnt as [|cnt IH]; intros i st Hi Hn Hinv.
  - exists st. split; [reflexivity|]. rewrite Nat.add_0_r. exact Hinv.
  - destruct (moments_body_inv i st Hi ltac:(lia) Hinv) as (st1 & E1 & Inv1).
    destruct (IH (S i) st1 ltac:(lia) ltac:(lia) Inv1) as (st2 & E2 & Inv2).
    exists st2. split.
    + simpl. rewrite E1. simpl. exact E2.
    + replace (i + S cnt)%nat with (S i + cnt)%nat by lia. exact Inv2.
Qed.

(** [get_moments] on a probe of the matrix's dimension, asked for at
    least two moments, raises nothing; slot [k] holds the doubling
    formula if [k < 2 (n / 2)] and zero otherwise. *)
Lemma moments_of_probe_ok :
  (2 <= n)%nat ->
  moments_of_probe H n x
  = Ok (map (fun k => if k <? 2 * (n / 2) then doubling_moment H x k else C0)
            (seq 0 n)).
Proof.
  intros Hn.
  assert (Hhalf : (1 <= n / 2 /\ 2 * (n / 2) <= n)%nat).
  { split.
    - apply (Nat.div_le_lower_bound n 2 1); lia.
    - apply Nat.Div0.mul_div_le. }
  destruct Hhalf as [Hh1 Hh2].
  set (mu1 := update (update (zeros n) 0 (inner x x)) 1
                (inner x (matvec H x))).
  assert (Lx1 : length (matvec H x) = N).
  { rewrite matvec_length. destruct Hsq as (_ & Hr & _). exact Hr. }
  assert (Inv1 : loop_inv H x n 1 (x, matvec H x, mu1)).
  { unfold loop_inv. repeat split.
    - unfold mu1. rewrite !update_length. apply zeros_length.
    - intros k Hk. unfold mu1.
      rewrite nth_update by (rewrite update_length, zeros_length; lia).
      rewrite nth_update by (rewrite zeros_length; lia).
      rewrite nth_zeros. unfold doubling_moment.
      destruct k as [|[|k]]; reflexivity. }
  destruct (for_each_inv (n / 2 - 1) 1 _ ltac:(lia) ltac:(lia) Inv1)
    as (st' & Efor & Inv').
  replace (1 + (n / 2 - 1))%nat with (n / 2)%nat in Inv' by lia.
  destruct st' as [[b0 b1] mu]. destruct Inv' as (_ & _ & Lmu & Hmu).
  unfold moments_of_probe.
  rewrite (spdot_ok N) by assumption. ok_step.
  rewrite dot1_same by reflexivity. ok_step.
  rewrite setitem_ok by (rewrite zeros_length; lia). ok_step.
  rewrite dot1_same by lia. ok_step.
  rewrite setitem_ok by (rewrite update_length, zeros_length; lia).
  ok_step. fold mu1. unfold range. rewrite Efor. ok_step.
  f_equal. apply (nth_ext _ _ C0 C0).
  - rewrite length_map, length_seq. exact Lmu.
  - intros k Hk. rewrite Lmu in Hk. rewrite Hmu by exact Hk.
    rewrite nth_map_seq by exact Hk. reflexivity.
Qed.

End MomentLoop.

(** ** Complex arithmetic *)

Lemma C_eq (a b : C) : re a = re b -> im a = im b -> a = b.
Proof. destruct a, b; simpl; intros; subst; reflexivity. Qed.

Ltac Cring := apply C_eq; simpl; ring.

Lemma Cadd_0_l (a : C) : Cadd C0 a = a.
Proof. Cring. Qed.

Lemma Cadd_0_r (a : C) : Cadd a C0 = a.
Proof. Cring. Qed.

Lemma Cmul_0_r (a : C) : Cmul a C0 = C0.
Proof. Cring. Qed.

Lemma Cconj_0 : Cconj C0 = C0.
Proof. Cring. Qed.

(** ** Sums over an index range *)

Lemma Csum_ext (f g : nat -> C) (n : nat) :
  (forall i, (i < n)%nat -> f i = g i) -> Csum f n = Csum g n.
Proof.
  induction n as [|n IH]; intros Hfg; simpl; [reflexivity|].
  rewrite IH by (intros; apply Hfg; lia). rewrite Hfg by lia. reflexivity.
Qed.

Lemma Csum_add (f g : nat -> C) (n : nat) :
  Csum (fun i => Cadd (f i) (g i)) n = Cadd (Csum f n) (Csum g n).
Proof.
  induction n as [|n IH]; simpl; [Cring|]. rewrite IH. Cring.
Qed.

Lemma Csum_mul_l (c : C) (f : nat -> C) (n : nat) :
  Csum (fun i => Cmul c (f i)) n = Cmul c (Csum f n).
Proof.
  induction n as [|n IH]; simpl; [Cring|]. rewrite IH. Cring.
Qed.

Lemma Csum_mul_r (c : C) (f : nat -> C) (n : nat) :
  Csum (fun i => Cmul (f i) c) n = Cmul (Csum f n) c.
Proof.
  induction n as [|n IH]; simpl; [Cring|]. rewrite IH. Cring.
Qed.

Lemma Csum_conj (f : nat -> C) (n : nat) :
  Cconj (Csum f n) = Csum (fun i => Cconj (f i)) n.
Proof.
  induction n as [|n IH]; simpl; [Cring|]. rewrite <- IH. Cring.
Qed.

Lemma Csum_zero (n : nat) : Csum (fun _ => C0) n = C0.
Proof. induction n as [|n IH]; simpl; [reflexivity|]. rewrite IH. Cring. Qed.

Lemma Csum_swap (f : nat -> nat -> C) (n m : nat) :
  Csum (fun i => Csum (fun j => f i j) m) n
  = Csum (fun j => Csum (fun i => f i j) n) m.
Proof.
  induction n as [|n IH]; simpl.
  - symmetry. apply Csum_zero.
  - rewrite IH. symmetry. apply Csum_add.
Qed.

Lemma Csum_shift (f : nat -> C) (n : nat) :
  Csum f (S n) = Cadd (f 0%nat) (Csum (fun i => f (S i)) n).
Proof.
  induction n as [|n IH].
  - simpl. Cring.
  - change (Csum f (S (S n))) with (Cadd (Csum f (S n)) (f (S n))).
    rewrite IH. simpl. Cring.
Qed.

(** The sum of products, by index. *)
Lemma dotu_Csum (n : nat) (a b : list C) :
  length a = n -> length b = n ->
  dotu a b = Csum (fun i => Cmul (nth i a C0) (nth i b C0)) n.
Proof.
  revert a b. induction n as [|n IH]; intros [|x a] [|y b] La Lb;
    simpl in La, Lb; try discriminate; [reflexivity|].
  rewrite Csum_shift. simpl. f_equal. apply IH; lia.
Qed.

Lemma nth_vconj (a : list C) (k : nat) :
  nth k (vconj a) C0 = Cconj (nth k a C0).
Proof.
  unfold vconj. rewrite <- Cconj_0 at 1. apply map_nth.
Qed.

Lemma nth_vscale (c : C) (a : list C) (k : nat) :
  nth k (vscale c a) C0 = Cmul c (nth k a C0).
Proof.
  unfold vscale. rewrite <- (Cmul_0_r c) at 1. apply map_nth.
Qed.

Lemma nth_matvec (H : matrix) (u : list C) (k : nat) :
  nth k (matvec H u) C0 = dotu (nth k (rows H) []) u.
Proof.
  unfold matvec.
  change C0 with ((fun r => dotu r u) []) at 1. apply map_nth.
Qed.

Lemma inner_Csum (n : nat) (a b : list C) :
  length a = n -> length b = n ->
  inner a b = Csum (fun i => Cmul (Cconj (nth i a C0)) (nth i b C0)) n.
Proof.
  intros La Lb. unfold inner.
  rewrite (dotu_Csum n) by (rewrite ?vconj_length; assumption).
  apply Csum_ext. intros i _. rewrite nth_vconj. reflexivity.
Qed.

(** ** The inner product *)

Lemma Csum_sub (f g : nat -> C) (n : nat) :
  Csum (fun i => Csub (f i) (g i)) n = Csub (Csum f n) (Csum g n).
Proof.
  induction n as [|n IH]; simpl; [Cring|]. rewrite IH. Cring.
Qed.

Section Inner.

Variable N : nat.

Lemma inner_sub_r (a b c : list C) :
  length a = N -> length b = N -> length c = N ->
  inner a (map2 Csub b c) = Csub (inner a b) (inner a c).
Proof.
  intros La Lb Lc.
  rewrite (inner_Csum N) by (rewrite ?map2_length; lia).
  rewrite (inner_Csum N a b), (inner_Csum N a c) by assumption.
  rewrite <- Csum_sub. apply Csum_ext. intros i Hi.
  rewrite nth_map2 by lia. Cring.
Qed.

Lemma inner_sub_l (a b c : list C) :
  length a = N -> length b = N -> length c = N ->
  inner (map2 Csub b c) a = Csub (inner b a) (inner c a).
Proof.
  intros La Lb Lc.
  rewrite (inner_Csum N) by (rewrite ?map2_length; lia).
  rewrite (inner_Csum N b a), (inner_Csum N c a) by assumption.
  rewrite <- Csum_sub. apply Csum_ext. intros i Hi.
  rewrite nth_map2 by lia. Cring.
Qed.

Lemma inner_scale_r (c : C) (a b : list C) :
  length a = N -> length b = N ->
  inner a (vscale c b) = Cmul c (inner a b).
Proof.
  intros La Lb.
  rewrite (inner_Csum N) by (rewrite ?vscale_length; lia).
  rewrite (inner_Csum N a b) by assumption.
  rewrite <- Csum_mul_l. apply Csum_ext. intros i Hi.
  rewrite nth_vscale. Cring.
Qed.

Lemma inner_scale_l (c : C) (a b : list C) :
  length a = N -> length b = N ->
  inner (vscale c a) b = Cmul (Cconj c) (inner a b).
Proof.
  intros La Lb.
  rewrite (inner_Csum N) by (rewrite ?vscale_length; lia).
  rewrite (inner_Csum N a b) by assumption.
  rewrite <- Csum_mul_l. apply Csum_ext. intros i Hi.
  rewrite nth_vscale. Cring.
Qed.

Lemma inner_conj_sym (a b : list C) :
  length a = N -> length b = N -> inner a b = Cconj (inner b a).
Proof.
  intros La Lb.
  rewrite (inner_Csum N a b), (inner_Csum N b a) by assumption.
  rewrite Csum_conj. apply Csum_ext. intros i Hi. Cring.
Qed.

Lemma row_length (H : matrix) (i : nat) :
  square N H -> (i < N)%nat -> length (nth i (rows H) []) = N.
Proof.
  intros (_ & Hr & Hrows) Hi.
  rewrite Forall_forall in Hrows. apply Hrows. apply nth_In. lia.
Qed.

Lemma nth_matvec_Csum (H : matrix) (u : list C) (i : nat) :
  square N H -> length u = N -> (i < N)%nat ->
  nth i (matvec H u) C0 = Csum (fun j => Cmul (entry H i j) (nth j u C0)) N.
Proof.
  intros Hsq Lu Hi. rewrite nth_matvec.
  apply dotu_Csum; [apply row_length; assumption | exact Lu].
Qed.

(** A Hermitian matrix is self-adjoint for the inner product. *)
Lemma inner_adjoint (H : matrix) (u v : list C) :
  hermitian N H -> length u = N -> length v = N ->
  inner (matvec H u) v = inner u (matvec H v).
Proof.
  intros [Hsq Hh] Lu Lv.
  assert (Lr : length (rows H) = N) by (destruct Hsq as (_ & Hr & _); exact Hr).
  rewrite (inner_Csum N) by (rewrite ?matvec_length; assumption).
  rewrite (inner_Csum N u) by (rewrite ?matvec_length; assumption).
  transitivity
    (Csum (fun i => Csum (fun j =>
       Cmul (Cconj (Cmul (entry H i j) (nth j u C0))) (nth i v C0)) N) N).
  { apply Csum_ext. intros i Hi.
    rewrite nth_matvec_Csum by assumption.
    rewrite Csum_conj, <- Csum_mul_r. reflexivity. }
  rewrite Csum_swap. apply Csum_ext. intros j Hj.
  rewrite nth_matvec_Csum by assumption.
  rewrite <- Csum_mul_l. apply Csum_ext. intros i Hi.
  rewrite (Hh i j Hi Hj). Cring.
Qed.

End Inner.

(** ** The product formula [2 T_i T_j = T_(i+j) + T_|i-j|] on moments *)

Ltac Clra :=
  repeat match goal with
         | E : @eq C _ _ |- _ =>
             let Er := fresh "Er" in
             let Ei := fresh "Ei" in
             pose proof (f_equal re E) as Er;
             pose proof (f_equal im E) as Ei;
             clear E
         end;
  repeat match goal with c : C |- _ => destruct c end;
  simpl in *; apply C_eq; simpl; lra.

Lemma product_arith_zero (g G1 G0 M2 M0 : C) :
  Cmul (RtoC 2) G1 = Cadd M2 M0 ->
  Cmul (RtoC 2) G0 = Cadd M0 M0 ->
  g = Csub (Cmul (RtoC 2) G1) G0 ->
  Cmul (RtoC 2) g = Cadd M2 M2.
Proof. intros. Clra. Qed.

Lemma product_arith_succ (g hh G1a G1b G0 Ma Mb Mc Md : C) :
  Cmul (RtoC 2) G1a = Cadd Ma Mb ->
  Cmul (RtoC 2) G1b = Cadd Mc Md ->
  Cmul (RtoC 2) G0 = Cadd Mc Mb ->
  G1a = Csub (Cmul (RtoC 2) hh) G1b ->
  g = Csub (Cmul (RtoC 2) hh) G0 ->
  Cmul (RtoC 2) g = Cadd Ma Md.
Proof. intros. Clra. Qed.

Lemma product_arith_one (hh M2 M0 : C) :
  M2 = Csub (Cmul (RtoC 2) hh) M0 ->
  Cmul (RtoC 2) hh = Cadd M2 M0.
Proof. intros. Clra. Qed.

Section Product.

Variables (N : nat) (H : matrix) (x : list C).
Hypothesis Hherm : hermitian N H.
Hypothesis Hx : length x = N.

Local Abbreviation a := (cheb_vec H x).

Lemma a_length (k : nat) : length (a k) = N.
Proof. apply (cheb_vec_length N H x k); [apply Hherm | exact Hx]. Qed.

Lemma Ha_length (k : nat) : length (matvec H (a k)) = N.
Proof. rewrite matvec_length. destruct Hherm as [(_ & Hr & _) _]. exact Hr. Qed.

Lemma inner_cheb_r (b : list C) (j : nat) :
  length b = N ->
  inner b (a (S (S j)))
  = Csub (Cmul (RtoC 2) (inner b (matvec H (a (S j))))) (inner b (a j)).
Proof.
  intros Lb. rewrite cheb_vec_SS.
  rewrite (inner_sub_r N)
    by (rewrite ?vscale_length; auto using a_length, Ha_length).
  rewrite (inner_scale_r N) by auto using Ha_length. reflexivity.
Qed.

Lemma inner_cheb_l (b : list C) (i : nat) :
  length b = N ->
  inner (a (S (S i))) b
  = Csub (Cmul (RtoC 2) (inner (a (S i)) (matvec H b))) (inner (a i) b).
Proof.
  intros Lb. rewrite cheb_vec_SS.
  rewrite (inner_sub_l N)
    by (rewrite ?vscale_length; auto using a_length, Ha_length).
  rewrite (inner_scale_l N) by auto using Ha_length.
  rewrite (inner_adjoint N) by auto using a_length.
  f_equal. Cring.
Qed.

Lemma product_formula (i : nat) :
  (forall j, Cmul (RtoC 2) (inner (a i) (a j))
             = Cadd (inner x (a (i + j))) (inner x (a (dist i j)))) /\
  (forall j, Cmul (RtoC 2) (inner (a (S i)) (a j))
             = Cadd (inner x (a (S i + j))) (inner x (a (dist (S i) j)))).
Proof.
  induction i as [|i [IH0 IH1]].
  - split; intros j.
    + replace (dist 0 j) with j by (unfold dist; lia). simpl Nat.add.
      change (a 0) with x. Cring.
    + change (a 1) with (matvec H x).
      rewrite (inner_adjoint N) by auto using a_length.
      destruct j as [|j].
      * change (a 0) with x. change (matvec H x) with (a 1).
        change (dist 1 0) with 1%nat. simpl Nat.add. Cring.
      * replace (dist 1 (S j)) with j by (unfold dist; lia).
        replace (1 + S j)%nat with (S (S j)) by lia.
        apply product_arith_one. apply inner_cheb_r. exact Hx.
  - split; [exact IH1|]. intros j.
    destruct j as [|j].
    + replace (dist (S (S i)) 0) with (S (S i)) by (unfold dist; lia).
      replace (S (S i) + 0)%nat with (S (S i)) by lia.
      pose proof (IH1 1%nat) as E1. pose proof (IH0 0%nat) as E0.
      replace (dist (S i) 1) with i in E1 by (unfold dist; lia).
      replace (S i + 1)%nat with (S (S i)) in E1 by lia.
      replace (dist i 0) with i in E0 by (unfold dist; lia).
      replace (i + 0)%nat with i in E0 by lia.
      apply (product_arith_zero _ _ _ _ _ E1 E0).
      rewrite inner_cheb_l by apply a_length. reflexivity.
    + pose proof (IH1 (S (S j))) as Ea. pose proof (IH1 j) as Eb.
      pose proof (IH0 (S j)) as E0.
      replace (dist (S i) (S (S j))) with (dist i (S j)) in Ea
        by (unfold dist; lia).
      replace (S i + S (S j))%nat with (S (S i) + S j)%nat in Ea by lia.
      replace (dist (S i) j) with (dist (S (S i)) (S j)) in Eb
        by (unfold dist; lia).
      replace (S i + j)%nat with (i + S j)%nat in Eb by lia.
      apply (product_arith_succ _ (inner (a (S i)) (matvec H (a (S j))))
               _ _ _ _ _ _ _ Ea Eb E0).
      * apply inner_cheb_r. apply a_length.
      * apply inner_cheb_l. apply a_length.
Qed.

End Product.

(** ** The vectors of the recursion are the Chebyshev polynomials of [H]
       applied to the probe *)

Lemma vec_ext (N : nat) (u v : list C) :
  length u = N -> length v = N ->
  (forall k, (k < N)%nat -> nth k u C0 = nth k v C0) -> u = v.
Proof.
  intros Lu Lv Hn. apply (nth_ext _ _ C0 C0); [lia|].
  intros k Hk. apply Hn. lia.
Qed.

Section ChebyshevPolynomials.

Variables (N : nat) (H : matrix) (x : list C).
Hypothesis Hsq : square N H.
Hypothesis Hx : length x = N.

Lemma rows_length : length (rows H) = N.
Proof. destruct Hsq as (_ & Hr & _). exact Hr. Qed.

Lemma matvec_add (u v : list C) :
  length u = N -> length v = N ->
  matvec H (map2 Cadd u v) = map2 Cadd (matvec H u) (matvec H v).
Proof.
  intros Lu Lv. apply (vec_ext N).
  - rewrite matvec_length. apply rows_length.
  - rewrite map2_length; rewrite !matvec_length; auto using rows_length.
  - intros k Hk.
    rewrite nth_map2 by (rewrite !matvec_length, ?rows_length; lia).
    rewrite !(nth_matvec_Csum N) by (rewrite ?map2_length; auto; lia).
    rewrite <- Csum_add. apply Csum_ext. intros j Hj.
    rewrite nth_map2 by lia. Cring.
Qed.

Lemma matvec_scale (c : C) (u : list C) :
  length u = N -> matvec H (vscale c u) = vscale c (matvec H u).
Proof.
  intros Lu. apply (vec_ext N).
  - rewrite matvec_length. apply rows_length.
  - rewrite vscale_length, matvec_length. apply rows_length.
  - intros k Hk. rewrite nth_vscale.
    rewrite !(nth_matvec_Csum N) by (rewrite ?vscale_length; auto).
    rewrite <- Csum_mul_l. apply Csum_ext. intros j Hj.
    rewrite nth_vscale. Cring.
Qed.

Lemma matvec_zeros : matvec H (zeros N) = zeros N.
Proof.
  apply (vec_ext N).
  - rewrite matvec_length. apply rows_length.
  - apply zeros_length.
  - intros k Hk.
    rewrite (nth_matvec_Csum N) by (auto using zeros_length).
    rewrite nth_zeros.
    transitivity (Csum (fun _ => C0) N); [|apply Csum_zero].
    apply Csum_ext. intros j Hj. rewrite nth_zeros. Cring.
Qed.

Lemma poly_apply_length (p : list Z) : length (poly_apply p H x) = N.
Proof.
  destruct p as [|c q]; simpl.
  - rewrite zeros_length. exact Hx.
  - rewrite map2_length; rewrite vscale_length, ?matvec_length, ?rows_length;
      auto.
Qed.

Lemma poly_apply_cons_nth (c : Z) (q : list Z) (k : nat) :
  (k < N)%nat ->
  nth k (poly_apply (c :: q) H x) C0
  = Cadd (Cmul (RtoC (IZR c)) (nth k x C0))
         (nth k (matvec H (poly_apply q H x)) C0).
Proof.
  intros Hk. simpl.
  rewrite nth_map2
    by (rewrite vscale_length, ?matvec_length, ?rows_length; lia).
  rewrite nth_vscale. reflexivity.
Qed.

Lemma poly_apply_padd (p q : list Z) :
  poly_apply (padd p q) H x
  = map2 Cadd (poly_apply p H x) (poly_apply q H x).
Proof.
  revert q. induction p as [|c p IH]; intros q.
  - simpl padd. apply (vec_ext N).
    + apply poly_apply_length.
    + rewrite map2_length; rewrite !poly_apply_length; reflexivity.
    + intros k Hk. rewrite nth_map2 by (rewrite !poly_apply_length; lia).
      simpl poly_apply at 2. rewrite nth_zeros. Cring.
  - destruct q as [|d q].
    + simpl padd. apply (vec_ext N).
      * apply poly_apply_length.
      * rewrite map2_length; rewrite !poly_apply_length; reflexivity.
      * intros k Hk. rewrite nth_map2 by (rewrite !poly_apply_length; lia).
        simpl poly_apply at 3. rewrite nth_zeros. Cring.
    + simpl padd. apply (vec_ext N).
      * apply poly_apply_length.
      * rewrite map2_length; rewrite !poly_apply_length; reflexivity.
      * intros k Hk. rewrite nth_map2 by (rewrite !poly_apply_length; lia).
        rewrite !poly_apply_cons_nth by exact Hk.
        rewrite IH, matvec_add by apply poly_apply_length.
        rewrite nth_map2 by (rewrite !matvec_length, rows_length; lia).
        rewrite plus_IZR. Cring.
Qed.

Lemma poly_apply_pscale (c : Z) (p : list Z) :
  poly_apply (pscale c p) H x = vscale (RtoC (IZR c)) (poly_apply p H x).
Proof.
  induction p as [|d p IH].
  - simpl. rewrite Hx. apply (vec_ext N).
    + apply zeros_length.
    + rewrite vscale_length. apply zeros_length.
    + intros k Hk. rewrite nth_vscale, nth_zeros. Cring.
  - change (pscale c (d :: p)) with ((c * d)%Z :: pscale c p).
    apply (vec_ext N).
    + apply poly_apply_length.
    + rewrite vscale_length. apply poly_apply_length.
    + intros k Hk. rewrite nth_vscale.
      rewrite !poly_apply_cons_nth by exact Hk.
      rewrite IH, matvec_scale by apply poly_apply_length.
      rewrite nth_vscale, mult_IZR. Cring.
Qed.

Lemma poly_apply_pshift (p : list Z) :
  poly_apply (pshift p) H x = matvec H (poly_apply p H x).
Proof.
  unfold pshift. apply (vec_ext N).
  - apply poly_apply_length.
  - rewrite matvec_length. apply rows_length.
  - intros k Hk. rewrite poly_apply_cons_nth by exact Hk. Cring.
Qed.

(** [T_k(H) x], by the coefficients of [T_k], is the [k]-th vector of the
    three-term recursion. *)
Lemma poly_apply_chebT (k : nat) :
  poly_apply (chebT k) H x = cheb_vec H x k /\
  poly_apply (snd (chebT_pair k)) H x = cheb_vec H x (S k).
Proof.
  assert (Lz : length (matvec H (zeros (length x))) = N)
    by (rewrite matvec_length; apply rows_length).
  induction k as [|k [IH0 IH1]].
  - split.
    + change (poly_apply (chebT 0) H x)
        with (poly_apply (1%Z :: []) H x).
      rewrite cheb_vec_0.
      apply (vec_ext N); [apply poly_apply_length | exact Hx |].
      intros j Hj. rewrite poly_apply_cons_nth by exact Hj.
      simpl poly_apply. rewrite Hx, matvec_zeros, nth_zeros. Cring.
    + change (poly_apply (snd (chebT_pair 0)) H x)
        with (poly_apply (pshift (1%Z :: [])) H x).
      rewrite poly_apply_pshift. rewrite cheb_vec_1. f_equal.
      apply (vec_ext N); [apply poly_apply_length | exact Hx |].
      intros j Hj. rewrite poly_apply_cons_nth by exact Hj.
      simpl poly_apply. rewrite Hx, matvec_zeros, nth_zeros. Cring.
  - assert (E : chebT_pair (S k)
                = (snd (chebT_pair k),
                   padd (pscale 2 (pshift (snd (chebT_pair k))))
                        (pscale (-1) (chebT k)))).
    { unfold chebT. simpl. destruct (chebT_pair k); reflexivity. }
    split.
    + unfold chebT. rewrite E. exact IH1.
    + rewrite E. cbn [snd].
      rewrite poly_apply_padd, !poly_apply_pscale, poly_apply_pshift.
      rewrite IH0, IH1, cheb_vec_SS.
      destruct (cheb_vec_length N H x k Hsq Hx) as [L0 L1].
      apply (vec_ext N).
      * rewrite map2_length; rewrite !vscale_length, ?matvec_length,
          ?rows_length; auto.
      * rewrite map2_length; rewrite !vscale_length, ?matvec_length,
          ?rows_length; auto.
      * intros j Hj.
        rewrite !nth_map2
          by (rewrite !vscale_length, ?matvec_length, ?rows_length; lia).
        rewrite !nth_vscale. Cring.
Qed.

End ChebyshevPolynomials.

(** ** [get_moments]: what it returns *)

Lemma random_probe_length (N : nat) (s : rng) :
  length (fst (random_probe N s)) = N.
Proof.
  unfold random_probe, rand. simpl. rewrite !length_map. apply length_seq.
Qed.

Lemma get_moments_ok (N : nat) (H : matrix) (n : nat) (s : rng) :
  square N H -> (2 <= n)%nat ->
  get_moments H n N s
  = Ok (map (fun k => if k <? 2 * (n / 2)
                      then doubling_moment H (fst (random_probe N s)) k
                      else C0) (seq 0 n),
        snd (random_probe N s)).
Proof.
  intros Hsq Hn. unfold get_moments.
  pose proof (random_probe_length N s) as Lx.
  destruct (random_probe N s) as [x s']. simpl in Lx |- *.
  rewrite (moments_of_probe_ok N H x n Hsq Lx Hn). reflexivity.
Qed.

Lemma doubling_is_direct (N : nat) (H : matrix) (x : list C) (k : nat) :
  hermitian N H -> length x = N ->
  doubling_moment H x k = direct_moment H x k.
Proof.
  intros Hh Hx. unfold direct_moment.
  rewrite (proj1 (poly_apply_chebT N H x (proj1 Hh) Hx k)).
  destruct k as [|[|k]]; [reflexivity | reflexivity |].
  destruct (Nat.even (S (S k))) eqn:Ev.
  - apply Nat.even_spec in Ev. destruct Ev as [i Ei]. rewrite Ei.
    rewrite doubling_moment_even by lia.
    pose proof (proj1 (product_formula N H x Hh Hx i) i) as E.
    replace (dist i i) with 0%nat in E by (unfold dist; lia).
    replace (i + i)%nat with (2 * i)%nat in E by lia.
    rewrite cheb_vec_0 in E.
    generalize dependent (inner (cheb_vec H x i) (cheb_vec H x i)).
    generalize (inner x (cheb_vec H x (2 * i))) (inner x x).
    intros. Clra.
  - assert (Od : Nat.odd (S (S k)) = true)
      by (rewrite <- Nat.negb_even, Ev; reflexivity).
    apply Nat.odd_spec in Od. destruct Od as [i Ei]. rewrite Ei.
    rewrite doubling_moment_odd by lia.
    pose proof (proj2 (product_formula N H x Hh Hx i) i) as E.
    replace (dist (S i) i) with 1%nat in E by (unfold dist; lia).
    replace (S i + i)%nat with (2 * i + 1)%nat in E by lia.
    rewrite cheb_vec_1 in E.
    replace (i + 1)%nat with (S i) by lia.
    generalize dependent (inner (cheb_vec H x (S i)) (cheb_vec H x i)).
    generalize (inner x (cheb_vec H x (2 * i + 1))) (inner x (matvec H x)).
    intros. Clra.
Qed.

Lemma half_of_double (m : nat) : (2 * m / 2 = m)%nat.
Proof. rewrite Nat.mul_comm. apply Nat.div_mul. lia. Qed.

Lemma inner_self (x : list C) : inner x x = RtoC (norm2 x).
Proof.
  induction x as [|c x IH]; [reflexivity|].
  change (inner (c :: x) (c :: x))
    with (Cadd (Cmul (Cconj c) c) (inner x x)).
  rewrite IH. Cring.
Qed.

(** For a Hermitian [H] the form [conj(x)·H·x] is real. *)
Lemma inner_hermitian_real (N : nat) (H : matrix) (x : list C) :
  hermitian N H -> length x = N ->
  inner x (matvec H x) = RtoC (re (inner x (matvec H x))).
Proof.
  intros Hh Hx.
  assert (LH : length (matvec H x) = N).
  { rewrite matvec_length. destruct Hh as [(_ & Hr & _) _]. exact Hr. }
  pose proof (inner_conj_sym N x (matvec H x) Hx LH) as E.
  rewrite (inner_adjoint N H x x Hh Hx Hx) in E.
  apply (f_equal im) in E. simpl in E.
  apply C_eq; simpl; lra.
Qed.

(** C1.  For a Hermitian matrix [H] of dimension [N] and an even number
    [2 m >= 2] of moments, the sequence the doubling recursion of
    [get_moments] produces is the sequence of the direct evaluations
    [conj(x)·T_k(H)·x], [k = 0 .. 2 m - 1]: for every probe [x] of length
    [N], and so for the probe [get_moments] draws.  (Exact arithmetic;
    the bound on the spectrum is not needed.) *)
Theorem get_moments_doubling_is_direct (N : nat) (H : matrix) (m : nat) :
  hermitian N H -> (1 <= m)%nat ->
  (forall x, length x = N ->
     moments_of_probe H (2 * m) x
     = Ok (map (direct_moment H x) (seq 0 (2 * m)))) /\
  (forall s,
     get_moments H (2 * m) N s
     = Ok (map (direct_moment H (fst (random_probe N s))) (seq 0 (2 * m)),
           snd (random_probe N s))).
Proof.
  intros Hh Hm.
  assert (Hmap : forall x, length x = N ->
            map (fun k => if k <? 2 * (2 * m / 2)
                          then doubling_moment H x k else C0) (seq 0 (2 * m))
            = map (direct_moment H x) (seq 0 (2 * m))).
  { intros x Hx. apply map_ext_in. intros k Hk. apply in_seq in Hk.
    rewrite half_of_double.
    destruct (Nat.ltb_spec k (2 * m)); [|lia].
    apply (doubling_is_direct N); assumption. }
  split.
  - intros x Hx.
    rewrite (moments_of_probe_ok N H x (2 * m) (proj1 Hh) Hx) by lia.
    rewrite Hmap by exact Hx. reflexivity.
  - intros s. rewrite (get_moments_ok N) by (try apply Hh; lia).
    rewrite Hmap by apply random_probe_length. reflexivity.
Qed.

(** C6.  For [num_moments = 2] the loop runs over an empty range, moment
    0 is the squared norm of the probe and moment 1 is the real part of
    [conj(x)·H·x]: for every probe [x] of the dimension of the Hermitian
    matrix, and so for the probe [get_moments] draws. *)
Theorem get_moments_two (N : nat) (H : matrix) :
  hermitian N H ->
  range 1 (2 / 2) = [] /\
  (forall x, length x = N ->
     moments_of_probe H 2 x
     = Ok [RtoC (norm2 x); RtoC (re (inner x (matvec H x)))]) /\
  (forall s,
     let x := fst (random_probe N s) in
     get_moments H 2 N s
     = Ok ([RtoC (norm2 x); RtoC (re (inner x (matvec H x)))],
           snd (random_probe N s))).
Proof.
  intros Hh. split; [reflexivity|].
  assert (E : forall x, length x = N ->
            map (fun k => if k <? 2 * (2 / 2)
                          then doubling_moment H x k else C0) (seq 0 2)
            = [RtoC (norm2 x); RtoC (re (inner x (matvec H x)))]).
  { intros x Hx. change (map _ (seq 0 2))
      with [inner x x; inner x (matvec H x)].
    rewrite inner_self. rewrite (inner_hermitian_real N H x Hh Hx) at 1.
    reflexivity. }
  split.
  - intros x Hx.
    rewrite (moments_of_probe_ok N H x 2 (proj1 Hh) Hx) by lia.
    rewrite E by exact Hx. reflexivity.
  - intros s x. rewrite (get_moments_ok N) by (try apply Hh; lia).
    rewrite E by apply random_probe_length. reflexivity.
Qed.

(** C10.  For an odd [num_moments >= 3] the loop writes the slots [2 i]
    and [2 i + 1] for [i = 1 .. num_moments // 2 - 1] only, the largest
    being [num_moments - 2]; [get_moments] returns [num_moments] entries
    and the last of them is the zero it was created with. *)
Theorem get_moments_odd_last_zero (N : nat) (H : matrix) (n : nat) (s : rng) :
  square N H -> Nat.odd n = true -> (3 <= n)%nat ->
  Forall (fun i => (1 <= i /\ 2 * i + 1 <= n - 2)%nat) (range 1 (n / 2)) /\
  exists mu s',
    get_moments H n N s = Ok (mu, s') /\
    length mu = n /\ nth (n - 1) mu C0 = C0.
Proof.
  intros Hsq Hodd Hn.
  apply Nat.odd_spec in Hodd. destruct Hodd as [m Em].
  assert (Hhalf : (n / 2 = m)%nat).
  { symmetry. apply (Nat.div_unique n 2 m 1); lia. }
  split.
  - apply Forall_forall. intros i Hi. unfold range in Hi.
    apply in_seq in Hi. lia.
  - rewrite (get_moments_ok N) by (try assumption; lia).
    eexists. eexists. split; [reflexivity|]. split.
    + rewrite length_map. apply length_seq.
    + rewrite nth_map_seq by lia. rewrite Hhalf.
      destruct (Nat.ltb_spec (n - 1) (2 * m)); [lia | reflexivity].
Qed.

(** ** [apply_kernel]: the stages *)

Lemma fold_map2_length (w : nat) (l : list (list R)) (acc : list R) :
  Forall (fun r => length r = w) l -> length acc = w ->
  length (fold_left (map2 Rplus) l acc) = w.
Proof.
  revert acc. induction l as [|r l IH]; intros acc Hl Hacc; simpl.
  - exact Hacc.
  - inversion Hl as [|r' l' Hr Hrest]; subst r' l'.
    apply IH; [assumption|]. rewrite map2_length; lia.
Qed.

Lemma nth_fold_map2 (w : nat) (rows : list (list C)) (acc : list R) (k : nat) :
  Forall (fun r => length r = w) rows -> length acc = w -> (k < w)%nat ->
  nth k (fold_left (map2 Rplus) (map (map re) rows) acc) 0%R
  = (nth k acc 0 + col_sum rows k)%R.
Proof.
  revert acc. induction rows as [|r rows IH]; intros acc Hl Hacc Hk; simpl.
  - lra.
  - inversion Hl as [|r' rows' Hr Hrows]; subst r' rows'.
    assert (Lr : length acc = length (map re r))
      by (rewrite length_map; lia).
    rewrite IH; [| assumption | rewrite map2_length; lia | exact Hk].
    rewrite nth_map2 by lia.
    replace (nth k (map re r) 0%R) with (re (nth k r C0))
      by (symmetry; apply (map_nth re r C0 k)).
    lra.
Qed.

Lemma Forall_map_length (w : nat) (rows : list (list C)) :
  Forall (fun r => length r = w) rows ->
  Forall (fun r => length r = w) (map (map re) rows).
Proof.
  intros Hl. apply Forall_map. eapply Forall_impl; [|exact Hl].
  simpl. intros r Hr. rewrite length_map. exact Hr.
Qed.

Lemma nth_repeat_0 (n k : nat) : nth k (repeat 0%R n) 0%R = 0%R.
Proof. revert k. induction n as [|n IH]; intros [|k]; simpl; auto. Qed.

(** Line 79 on a batch whose rows all have [w] entries. *)
Lemma sum_real_axis0_rows (w : nat) (rows : list (list C)) :
  Forall (fun r => length r = w) rows ->
  sum_real_axis0 (Batch2 w rows) = Vec (map (col_sum rows) (seq 0 w)).
Proof.
  intros Hl. simpl. f_equal.
  assert (L : length (fold_left (map2 Rplus) (map (map re) rows)
                        (repeat 0%R w)) = w).
  { apply fold_map2_length; [apply Forall_map_length; exact Hl|].
    apply repeat_length. }
  apply (nth_ext _ _ 0%R 0%R).
  - rewrite L, length_map, length_seq. reflexivity.
  - intros k Hk. rewrite L in Hk.
    rewrite (nth_fold_map2 w) by auto using repeat_length.
    rewrite nth_repeat_0, nth_map_seq by exact Hk. lra.
Qed.

Lemma skipn_repeat (n k : nat) (x : R) :
  skipn k (repeat x n) = repeat x (n - k).
Proof.
  revert k. induction n as [|n IH]; intros [|k]; simpl; auto.
Qed.

Lemma nth_app_repeat (v : list R) (m k : nat) :
  nth k (v ++ repeat 0%R m) 0%R = nth k v 0%R.
Proof.
  destruct (Nat.lt_ge_cases k (length v)) as [Hk|Hk].
  - apply app_nth1. exact Hk.
  - rewrite app_nth2 by exact Hk. rewrite nth_repeat_0.
    symmetry. apply nth_overflow. exact Hk.
Qed.

Lemma INR_to_nat (z : Z) : (0 <= z)%Z -> INR (Z.to_nat z) = IZR z.
Proof. intros Hz. rewrite INR_IZR_INZ, Z2Nat.id by exact Hz. reflexivity. Qed.

(** Lines 91-92: the abscissas are the nodes, whatever the moments. *)
Lemma arange_nodes (num_points : Z) :
  map (fun p => cos (PI * (p + 0.5) / IZR num_points)) (arange num_points)
  = if (num_points <? 0)%Z then []
    else map (kpm_node (Z.to_nat num_points)) (seq 0 (Z.to_nat num_points)).
Proof.
  unfold arange. rewrite map_map.
  destruct (Z.ltb_spec num_points 0) as [Hneg|Hpos].
  - destruct num_points; try lia. reflexivity.
  - apply map_ext. intros j. unfold kpm_node.
    rewrite INR_to_nat by exact Hpos. reflexivity.
Qed.

Lemma map2_as_map_seq (f : R -> R -> R) (P : nat) (a b : list R) :
  length a = P -> length b = P ->
  map2 f a b = map (fun j => f (nth j a 0%R) (nth j b 0%R)) (seq 0 P).
Proof.
  intros La Lb. apply (nth_ext _ _ 0%R 0%R).
  - rewrite map2_length, length_map, length_seq; lia.
  - intros k Hk. rewrite map2_length in Hk by lia.
    rewrite nth_map2, nth_map_seq by lia. reflexivity.
Qed.

Lemma real_zeros_ok (num_points : Z) :
  (0 <= num_points)%Z ->
  real_zeros num_points = Ok (repeat 0%R (Z.to_nat num_points)).
Proof.
  intros Hp. unfold real_zeros.
  destruct (Z.ltb_spec num_points 0); [lia | reflexivity].
Qed.

(** Lines 79-85 on a batch of width [n] and a kernel of [n] weights. *)
Lemma damped_stage (rows : list (list C)) (kernel : option (list R))
    (dimension n num_vecs : nat) :
  Forall (fun r => length r = n) rows ->
  match kernel with Some ker => length ker = n | None => True end ->
  match kernel with
  | Some ker =>
      arr_mul (arr_div (arr_div (sum_real_axis0 (Batch2 n rows))
                                (INR num_vecs)) (INR dimension)) ker
  | None =>
      Ok (arr_div (arr_div (sum_real_axis0 (Batch2 n rows))
                           (INR num_vecs)) (INR dimension))
  end
  = Ok (Vec (map (damped_moment rows kernel dimension num_vecs) (seq 0 n))).
Proof.
  intros Hrows Hker. rewrite (sum_real_axis0_rows n rows Hrows).
  cbn [arr_div]. rewrite !map_map.
  destruct kernel as [ker|].
  - cbn [arr_mul]. rewrite broadcast2_same
      by (rewrite length_map, length_seq; lia).
    ok_step. do 2 f_equal.
    rewrite (map2_as_map_seq Rmult n)
      by (rewrite ?length_map, ?length_seq; lia).
    apply map_ext_in. intros k Hk. apply in_seq in Hk.
    rewrite nth_map_seq by lia. reflexivity.
  - reflexivity.
Qed.

(** Lines 87-88 when the slice and the moments have the same length. *)
Lemma set_prefix_pad (v : list R) (n P : nat) :
  length v = n -> (n <= P)%nat ->
  set_prefix (repeat 0%R P) n (Vec v)
  = Ok (map (fun k => if k <? n then nth k v 0%R else 0%R) (seq 0 P)).
Proof.
  intros Lv Hle. unfold set_prefix. rewrite repeat_length.
  rewrite Nat.min_l by exact Hle. rewrite Lv, Nat.eqb_refl.
  f_equal. rewrite skipn_repeat. apply (nth_ext _ _ 0%R 0%R).
  - rewrite length_app, repeat_length, length_map, length_seq. lia.
  - intros k Hk. rewrite length_app, repeat_length in Hk.
    rewrite nth_app_repeat, nth_map_seq by lia.
    destruct (Nat.ltb_spec k n); [reflexivity|].
    apply nth_overflow. lia.
Qed.

(** What [apply_kernel] returns on a batch of rows of width
    [num_moments], with a kernel of [num_moments] weights or none, a
    non-negative [extra_points] and a transform that keeps the length. *)
Lemma apply_kernel_ok (dctIII : list R -> list R) (rows : list (list C))
    (kernel : option (list R)) (dimension n num_vecs : nat) (extra_points : Z) :
  Forall (fun r => length r = n) rows ->
  match kernel with Some ker => length ker = n | None => True end ->
  (0 <= extra_points)%Z ->
  (forall v, length (dctIII v) = length v) ->
  apply_kernel dctIII (Batch2 n rows) kernel dimension n num_vecs extra_points
  = Ok (reconstruct dctIII rows kernel dimension n num_vecs extra_points).
Proof.
  intros Hrows Hker Hep Hdct. unfold apply_kernel.
  rewrite (damped_stage rows kernel dimension n num_vecs Hrows Hker).
  ok_step. rewrite real_zeros_ok by lia. ok_step.
  set (P := Z.to_nat (extra_points + Z.of_nat n)).
  rewrite (set_prefix_pad _ n P)
    by (rewrite ?length_map, ?length_seq; unfold P; lia).
  ok_step. rewrite arange_nodes.
  destruct (Z.ltb_spec (extra_points + Z.of_nat n) 0); [lia|]. fold P.
  set (padded := map _ (seq 0 P)).
  assert (Epad : padded
            = map (fun k => if k <? n
                            then damped_moment rows kernel dimension num_vecs k
                            else 0%R) (seq 0 P)).
  { unfold padded. apply map_ext_in. intros k Hk.
    destruct (Nat.ltb_spec k n); [|reflexivity].
    rewrite nth_map_seq by lia. reflexivity. }
  assert (Lpad : length padded = P)
    by (unfold padded; rewrite length_map, length_seq; reflexivity).
  rewrite broadcast2_same
    by (rewrite Hdct, Lpad, !length_map, length_seq; reflexivity).
  ok_step. unfold reconstruct. fold P. rewrite <- Epad.
  do 2 f_equal.
  rewrite (map2_as_map_seq Rdiv P)
    by (rewrite ?Hdct, ?Lpad, ?length_map, ?length_seq; reflexivity).
  apply map_ext_in. intros j Hj. apply in_seq in Hj.
  rewrite map_map, nth_map_seq by lia. reflexivity.
Qed.

(** Whatever else it is given, the abscissas [apply_kernel] returns are
    the nodes for [num_points = extra_points + num_moments]. *)
Lemma apply_kernel_ek (dctIII : list R -> list R) (moments : batch)
    (kernel : option (list R)) (dimension n num_vecs : nat)
    (extra_points : Z) (ek rho : list R) :
  apply_kernel dctIII moments kernel dimension n num_vecs extra_points
    = Ok (ek, rho) ->
  (0 <= extra_points + Z.of_nat n)%Z /\
  ek = map (kpm_node (Z.to_nat (extra_points + Z.of_nat n)))
           (seq 0 (Z.to_nat (extra_points + Z.of_nat n))).
Proof.
  unfold apply_kernel.
  destruct (match kernel with
            | Some ker => arr_mul _ ker
            | None => Ok _
            end) as [m|e]; [ok_step | discriminate].
  unfold real_zeros at 1.
  destruct (Z.ltb_spec (extra_points + Z.of_nat n) 0) as [Hneg|Hpos];
    [discriminate | ok_step].
  destruct (set_prefix _ n m) as [mu_ext|e]; [ok_step | discriminate].
  rewrite arange_nodes.
  destruct (Z.ltb_spec (extra_points + Z.of_nat n) 0); [lia|].
  destruct (broadcast2 Rdiv _ _) as [rho'|e]; [ok_step | discriminate].
  intros E. injection E as <- <-.
  split; [exact Hpos | reflexivity].
Qed.

(** With at least two moments per row, a negative [extra_points] makes
    [apply_kernel] fail in the array library. *)
Lemma broadcast2_wide (f : R -> R -> R) (v ker : list R) :
  (2 <= length v)%nat ->
  broadcast2 f v ker = Raise ValueError \/
  exists v', broadcast2 f v ker = Ok v' /\ length v' = length v.
Proof.
  intros Hv. unfold broadcast2.
  destruct (Nat.eqb_spec (length v) (length ker)) as [El|Nl].
  - right. eexists. split; [reflexivity|]. apply map2_length. exact El.
  - destruct v as [|x [|x' v]]; simpl in Hv; try lia.
    destruct ker as [|y [|y' ker]].
    + left. reflexivity.
    + right. eexists. split; [reflexivity|]. apply length_map.
    + left. reflexivity.
Qed.

Lemma set_prefix_short (v : list R) (P n : nat) :
  (2 <= length v)%nat -> length v = n -> (P < n)%nat ->
  set_prefix (repeat 0%R P) n (Vec v) = Raise ValueError.
Proof.
  intros Hv Lv HP. unfold set_prefix. rewrite repeat_length.
  rewrite Nat.min_r by lia.
  destruct (Nat.eqb_spec (length v) P); [lia|].
  destruct v as [|x [|x' v]]; simpl in Hv; try lia. reflexivity.
Qed.

Lemma apply_kernel_negative_extra (dctIII : list R -> list R)
    (rows : list (list C)) (kernel : option (list R))
    (dimension n num_vecs : nat) (extra_points : Z) :
  Forall (fun r => length r = n) rows -> (2 <= n)%nat ->
  (extra_points < 0)%Z ->
  apply_kernel dctIII (Batch2 n rows) kernel dimension n num_vecs extra_points
  = Raise ValueError.
Proof.
  intros Hrows Hn Hep. unfold apply_kernel.
  rewrite (sum_real_axis0_rows n rows Hrows). cbn [arr_div].
  set (v := map _ (map _ (map _ (seq 0 n)))).
  assert (Lv : length v = n)
    by (unfold v; rewrite !length_map; apply length_seq).
  assert (Hstage : forall m : list R, length m = n ->
            (mu_ext <- real_zeros (extra_points + Z.of_nat n) ;;
             set_prefix mu_ext n (Vec m)) = Raise ValueError).
  { intros m Lm. unfold real_zeros.
    destruct (Z.ltb_spec (extra_points + Z.of_nat n) 0); [reflexivity|].
    ok_step. apply set_prefix_short; lia. }
  assert (Hrest : forall (m : list R)
                    (k : list R -> result (list R * list R)),
            length m = n ->
            (mu_ext <- real_zeros (extra_points + Z.of_nat n) ;;
             mu_ext <- set_prefix mu_ext n (Vec m) ;; k mu_ext)
            = Raise ValueError).
  { intros m k Lm. specialize (Hstage m Lm). revert Hstage.
    destruct (real_zeros (extra_points + Z.of_nat n)) as [z|e]; simpl.
    - intros ->. reflexivity.
    - intros [= ->]. reflexivity. }
  destruct kernel as [ker|].
  - cbn [arr_mul].
    destruct (broadcast2_wide Rmult v ker ltac:(lia)) as [E|(v' & E & Lv')];
      rewrite E; [reflexivity|].
    do 2 ok_step. apply Hrest. lia.
  - ok_step. apply Hrest. exact Lv.
Qed.

(** ** The nodes are interior *)

Lemma kpm_node_interior (P j : nat) :
  (1 <= P)%nat -> (j < P)%nat ->
  (-1 < kpm_node P j < 1)%R.
Proof.
  intros HP Hj. unfold kpm_node.
  assert (HPpos : (0 < INR P)%R) by (apply lt_0_INR; lia).
  assert (Hj0 : (0 <= INR j)%R) by apply pos_INR.
  assert (Hj1 : (INR j + 1 <= INR P)%R).
  { rewrite <- S_INR. apply le_INR. lia. }
  pose proof PI_RGT_0 as Hpi.
  set (t := (PI * (INR j + 0.5) / INR P)%R).
  assert (Ht0 : (0 < t)%R).
  { unfold t. apply Rdiv_lt_0_compat; [|exact HPpos].
    apply Rmult_lt_0_compat; lra. }
  assert (Ht1 : (t < PI)%R).
  { unfold t. apply (Rmult_lt_reg_r (INR P)); [exact HPpos|].
    unfold Rdiv. rewrite Rmult_assoc, Rinv_l by lra. nra. }
  split.
  - rewrite <- cos_PI. apply cos_decreasing_1; lra.
  - rewrite <- cos_0. apply cos_decreasing_1; lra.
Qed.

Lemma kpm_weight_pos (e : R) : (-1 < e < 1)%R -> (0 < kpm_weight e)%R.
Proof.
  intros He. unfold kpm_weight.
  apply Rmult_lt_0_compat; [apply PI_RGT_0|].
  apply sqrt_lt_R0. nra.
Qed.

(** ** The small instance *)

Lemma example_H_hermitian : hermitian 2 example_H.
Proof.
  split.
  - repeat split. repeat constructor.
  - intros i j Hi Hj.
    destruct i as [|[|i]], j as [|[|j]]; try lia;
      apply C_eq; unfold entry; simpl; lra.
Qed.

Lemma example_probe_length : length example_probe = 2%nat.
Proof. reflexivity. Qed.

(** ** The claims about [get_moments] and [apply_kernel] *)

Lemma get_moments_doubling_is_direct_witness :
  hermitian 2 example_H /\ (1 <= 2)%nat /\
  moments_of_probe example_H (2 * 2) example_probe
  = Ok (map (direct_moment example_H example_probe) (seq 0 (2 * 2))).
Proof.
  split; [exact example_H_hermitian|]. split; [lia|].
  apply (proj1 (get_moments_doubling_is_direct 2 example_H 2
                  example_H_hermitian ltac:(lia))).
  reflexivity.
Defined.

Lemma get_moments_two_witness :
  hermitian 2 example_H /\
  moments_of_probe example_H 2 example_probe
  = Ok [RtoC (norm2 example_probe);
        RtoC (re (inner example_probe (matvec example_H example_probe)))].
Proof.
  split; [exact example_H_hermitian|].
  apply (proj1 (proj2 (get_moments_two 2 example_H example_H_hermitian))).
  reflexivity.
Defined.

Lemma get_moments_odd_last_zero_witness :
  square 2 example_H /\ Nat.odd 5 = true /\ (3 <= 5)%nat /\
  exists mu s',
    get_moments example_H 5 2 example_rng = Ok (mu, s') /\
    length mu = 5%nat /\ nth (5 - 1) mu C0 = C0.
Proof.
  split; [exact (proj1 example_H_hermitian)|].
  split; [reflexivity|]. split; [lia|].
  apply (proj2 (get_moments_odd_last_zero 2 example_H 5 example_rng
                  (proj1 example_H_hermitian) eq_refl ltac:(lia))).
Defined.

(** C2.  On a batch of rows of [num_moments] entries, with a kernel of
    [num_moments] weights or none, a non-negative [extra_points] and a
    transform that keeps the length, [apply_kernel] returns [num_points
    = extra_points + num_moments] abscissas and densities: moment [k] is
    the sum over the rows of its real part, divided by [num_vecs] and by
    [dimension], times the kernel's weight when there is a kernel; the
    moments are padded with zeros to [num_points] and transformed;
    [ek j = cos (PI (j + 0.5) / num_points)] and
    [rho j = smooth_moments j / (PI sqrt (1 - (ek j)^2))]. *)
Theorem apply_kernel_reconstructs (dctIII : list R -> list R)
    (rows : list (list C)) (kernel : option (list R))
    (dimension num_moments num_vecs : nat) (extra_points : Z) :
  Forall (fun r => length r = num_moments) rows ->
  match kernel with Some ker => length ker = num_moments | None => True end ->
  (0 <= extra_points)%Z ->
  (forall v, length (dctIII v) = length v) ->
  let num_points := Z.to_nat (extra_points + Z.of_nat num_moments) in
  let mu k :=
    (fold_right (fun r acc => re (nth k r C0) + acc) 0 rows
     / INR num_vecs / INR dimension)%R in
  let damped k :=
    match kernel with Some ker => (mu k * nth k ker 0)%R | None => mu k end in
  let smooth_moments :=
    dctIII (map (fun k => if k <? num_moments then damped k else 0%R)
                (seq 0 num_points)) in
  exists ek rho,
    apply_kernel dctIII (Batch2 num_moments rows) kernel dimension
      num_moments num_vecs extra_points = Ok (ek, rho) /\
    length ek = num_points /\ length rho = num_points /\
    forall j, (j < num_points)%nat ->
      nth j ek 0%R = cos (PI * (INR j + 0.5) / INR num_points) /\
      nth j rho 0%R
      = (nth j smooth_moments 0 / (PI * sqrt (1 - nth j ek 0 ^ 2)))%R.
Proof.
  intros Hrows Hker Hep Hdct num_points mu damped smooth_moments.
  rewrite (apply_kernel_ok dctIII rows kernel dimension num_moments num_vecs
             extra_points Hrows Hker Hep Hdct).
  unfold reconstruct. fold num_points.
  eexists. eexists. split; [reflexivity|].
  split; [rewrite length_map; apply length_seq|].
  split; [rewrite length_map; apply length_seq|].
  intros j Hj. rewrite !nth_map_seq by exact Hj.
  split; reflexivity.
Qed.

Lemma apply_kernel_reconstructs_witness :
  exists ek rho,
    apply_kernel (fun v => v) (Batch2 2 [example_probe]) (Some [1; 1]%R)
      2 2 1 1 = Ok (ek, rho) /\
    length ek = 3%nat /\ length rho = 3%nat.
Proof.
  destruct (apply_kernel_reconstructs (fun v => v) [example_probe]
              (Some [1; 1]%R) 2 2 1 1
              ltac:(repeat constructor) eq_refl ltac:(lia)
              (fun v => eq_refl))
    as (ek & rho & E & Lek & Lrho & _).
  exists ek, rho. repeat split; assumption.
Defined.

(** C4, as stated, fails: with the odd [num_moments = 5] the moment
    engine raises nothing. *)
Lemma get_moments_odd_not_refused :
  Nat.odd 5 = true /\
  raises (get_moments example_H 5 2 example_rng) = false.
Proof.
  split; [reflexivity|].
  rewrite (get_moments_ok 2 example_H 5 example_rng
             (proj1 example_H_hermitian) ltac:(lia)).
  reflexivity.
Qed.

(** [apply_kernel] is lines 79-85, then the zero array, the slice
    assignment and the rest. *)
Lemma apply_kernel_stages (dctIII : list R -> list R) (moments : batch)
    (kernel : option (list R)) (dimension num_moments num_vecs : nat)
    (extra_points : Z) :
  apply_kernel dctIII moments kernel dimension num_moments num_vecs
    extra_points
  = (m <- damped_moments moments kernel dimension num_vecs ;;
     mu_ext <- real_zeros (extra_points + Z.of_nat num_moments) ;;
     mu_ext <- set_prefix mu_ext num_moments m ;;
     rho <- broadcast2 Rdiv (dctIII mu_ext)
              (map (fun e => PI * sqrt (1 - e ^ 2))%R
                 (map (fun p => cos (PI * (p + 0.5)
                                     / IZR (extra_points
                                            + Z.of_nat num_moments)))
                    (arange (extra_points + Z.of_nat num_moments)))) ;;
     Ok (map (fun p => cos (PI * (p + 0.5)
                            / IZR (extra_points + Z.of_nat num_moments)))
           (arange (extra_points + Z.of_nat num_moments)), rho)).
Proof. reflexivity. Qed.

(** Where the moments have [n >= 2] entries per row, lines 79-85 fail
    exactly when the kernel does not broadcast. *)
Lemma damped_moments_cases (rows : list (list C)) (kernel : option (list R))
    (dimension n num_vecs : nat) :
  Forall (fun r => length r = n) rows -> (2 <= n)%nat ->
  (damped_moments (Batch2 n rows) kernel dimension num_vecs
     = Raise ValueError /\
   exists ker, kernel = Some ker /\ length ker <> n /\ length ker <> 1%nat)
  \/
  (exists m,
     damped_moments (Batch2 n rows) kernel dimension num_vecs = Ok (Vec m) /\
     length m = n /\
     (kernel = None \/
      exists ker, kernel = Some ker /\
                  (length ker = n \/ length ker = 1%nat))).
Proof.
  intros Hrows Hn. unfold damped_moments.
  rewrite (sum_real_axis0_rows n rows Hrows). cbn [arr_div].
  set (v := map _ (map _ (map _ (seq 0 n)))).
  assert (Lv : length v = n)
    by (unfold v; rewrite !length_map; apply length_seq).
  destruct kernel as [ker|].
  - cbn [arr_mul]. unfold broadcast2.
    destruct (Nat.eqb_spec (length v) (length ker)) as [El|Nl].
    + right. eexists. split; [reflexivity|].
      split; [rewrite map2_length; lia|].
      right. exists ker. split; [reflexivity|]. left. lia.
    + destruct v as [|x [|x' v]]; simpl in Lv; try lia.
      destruct ker as [|y [|y' ker]].
      * left. split; [reflexivity|]. exists []. simpl. repeat split; lia.
      * right. eexists. split; [reflexivity|].
        split; [rewrite length_map; exact Lv|].
        right. exists [y]. split; [reflexivity|]. right. reflexivity.
      * left. split; [reflexivity|]. exists (y :: y' :: ker).
        split; [reflexivity|]. simpl in *. split; lia.
  - right. exists v. split; [reflexivity|]. split; [exact Lv|].
    left. reflexivity.
Qed.

(** C4, as amended.  Neither function checks its parameters.  With any
    [num_moments >= 2], odd or even, [get_moments] on a square matrix of
    the given dimension raises nothing and returns [num_moments]
    entries.  With [extra_points < 0], [apply_kernel] on rows of
    [num_moments >= 2] entries fails with the array library's
    [ValueError]: at [moments*kernel] when the kernel's length is
    neither [num_moments] nor 1; otherwise at [cp.zeros] when
    [extra_points + num_moments < 0], and at the slice assignment when
    [0 <= extra_points + num_moments]. *)
Theorem no_parameter_check (N : nat) (H : matrix) (num_moments : nat)
    (s : rng) (dctIII : list R -> list R) (rows : list (list C))
    (kernel : option (list R)) (dimension num_vecs : nat)
    (extra_points : Z) :
  square N H -> (2 <= num_moments)%nat ->
  Forall (fun r => length r = num_moments) rows ->
  (extra_points < 0)%Z ->
  let num_points := (extra_points + Z.of_nat num_moments)%Z in
  (exists mu s',
     get_moments H num_moments N s = Ok (mu, s') /\
     length mu = num_moments) /\
  apply_kernel dctIII (Batch2 num_moments rows) kernel dimension
    num_moments num_vecs extra_points = Raise ValueError /\
  ((damped_moments (Batch2 num_moments rows) kernel dimension num_vecs
      = Raise ValueError /\
    exists ker, kernel = Some ker /\
                length ker <> num_moments /\ length ker <> 1%nat)
   \/
   (exists m,
      damped_moments (Batch2 num_moments rows) kernel dimension num_vecs
        = Ok (Vec m) /\
      (kernel = None \/
       exists ker, kernel = Some ker /\
                   (length ker = num_moments \/ length ker = 1%nat)) /\
      (((num_points < 0)%Z /\ real_zeros num_points = Raise ValueError)
       \/
       ((0 <= num_points)%Z /\
        real_zeros num_points = Ok (repeat 0%R (Z.to_nat num_points)) /\
        set_prefix (repeat 0%R (Z.to_nat num_points)) num_moments (Vec m)
          = Raise ValueError)))).
Proof.
  intros Hsq Hn Hrows Hep num_points. split; [|split].
  - rewrite (get_moments_ok N H num_moments s Hsq Hn).
    eexists. eexists. split; [reflexivity|].
    rewrite length_map. apply length_seq.
  - apply apply_kernel_negative_extra; assumption.
  - destruct (damped_moments_cases rows kernel dimension num_moments
                num_vecs Hrows Hn) as [Hbad|(m & Em & Lm & Hk)].
    + left. exact Hbad.
    + right. exists m. split; [exact Em|]. split; [exact Hk|].
      destruct (Z.ltb_spec num_points 0) as [Hneg|Hpos].
      * left. split; [exact Hneg|]. unfold real_zeros.
        destruct (Z.ltb_spec num_points 0); [reflexivity | lia].
      * right. split; [exact Hpos|].
        split; [apply real_zeros_ok; exact Hpos|].
        apply set_prefix_short; unfold num_points; lia.
Qed.

Lemma no_parameter_check_witness :
  (exists mu s',
     get_moments example_H 3 2 example_rng = Ok (mu, s') /\
     length mu = 3%nat) /\
  apply_kernel (fun v => v) (Batch2 3 [[C0; C0; C0]]) None 2 3 1 (-1)
  = Raise ValueError.
Proof.
  destruct (no_parameter_check 2 example_H 3 example_rng (fun v => v)
              [[C0; C0; C0]] None 2 1 (-1)
              (proj1 example_H_hermitian) ltac:(lia)
              ltac:(repeat constructor) ltac:(lia)) as (Hg & Ha & _).
  split; [exact Hg | exact Ha].
Defined.

(** ** The nodes on binary64 values *)

Lemma digits2_pos_bounds (m : positive) :
  (2 ^ (Zpos (digits2_pos m) - 1) <= Zpos m < 2 ^ Zpos (digits2_pos m))%Z.
Proof.
  induction m as [m IH|m IH|]; cbn [digits2_pos].
  - rewrite Pos2Z.inj_succ.
    replace (Z.succ (Zpos (digits2_pos m)) - 1)%Z
      with (Z.succ (Zpos (digits2_pos m) - 1)) by lia.
    rewrite !Z.pow_succ_r by lia. lia.
  - rewrite Pos2Z.inj_succ.
    replace (Z.succ (Zpos (digits2_pos m)) - 1)%Z
      with (Z.succ (Zpos (digits2_pos m) - 1)) by lia.
    rewrite !Z.pow_succ_r by lia. lia.
  - simpl. lia.
Qed.

Lemma valid_mantissa (s : bool) (m : positive) (e : Z) :
  SpecFloat.valid_binary prec emax (S754_finite s m e) = true ->
  (Zpos m < 9007199254740992)%Z /\
  (Z.max (Zpos (digits2_pos m) + e - 53) (-1074) = e)%Z.
Proof.
  unfold SpecFloat.valid_binary, bounded, canonical_mantissa, fexp, SpecFloat.emin.
  intros Hv. apply andb_true_iff in Hv. destruct Hv as [Hc _].
  apply Z.eqb_eq in Hc.
  change (fexp prec emax (Zpos (digits2_pos m) + e))
    with (Z.max (Zpos (digits2_pos m) + e - 53) (-1074)) in Hc.
  split; [|exact Hc].
  pose proof (digits2_pos_bounds m) as [_ Hm].
  assert (Hd : (Zpos (digits2_pos m) <= 53)%Z) by lia.
  apply (Z.lt_le_trans _ _ _ Hm).
  change 9007199254740992%Z with (2 ^ 53)%Z. apply Z.pow_le_mono_r; lia.
Qed.

Lemma pow_pos_gt_0 (p : positive) : (0 < Z.pow_pos 2 p)%Z.
Proof. change (Z.pow_pos 2 p) with (2 ^ Zpos p)%Z. apply Z.pow_pos_nonneg; lia. Qed.

Lemma pow_pos_ge_2 (p : positive) : (2 <= Z.pow_pos 2 p)%Z.
Proof.
  change (Z.pow_pos 2 p) with (2 ^ Zpos p)%Z.
  replace 2%Z with (2 ^ 1)%Z at 1 by reflexivity.
  apply Z.pow_le_mono_r; lia.
Qed.

(** Below 1 the binary64 values stop at [1 - 2^-53]. *)
Lemma spacing_below_one (y : spec_float) :
  binary64 y -> (SF2R y < 1)%R ->
  (SF2R y <= 1 - / 9007199254740992)%R.
Proof.
  intros [Hv Hf] Hlt.
  destruct y as [s| | |s m e]; simpl in Hf; try discriminate;
    unfold SF2R in *.
  - lra.
  - destruct (valid_mantissa s m e Hv) as [Hm _].
    assert (Hmpos : (1 <= IZR (Zpos m))%R) by (apply IZR_le; lia).
    destruct s.
    + assert (0 < pow2 e)%R.
      { destruct e; simpl; [lra | apply IZR_lt, pow_pos_gt_0 |
                            apply Rinv_0_lt_compat, IZR_lt, pow_pos_gt_0]. }
      nra.
    + rewrite Rmult_1_l in *. destruct e as [|p|p]; unfold pow2 in *.
      * lra.
      * assert (2 <= IZR (Z.pow_pos 2 p))%R by (apply IZR_le, pow_pos_ge_2).
        nra.
      * set (P := Z.pow_pos 2 p) in *.
        assert (HP : (0 < P)%Z) by apply pow_pos_gt_0.
        assert (HPr : (0 < IZR P)%R) by (apply IZR_lt; exact HP).
        assert (HmP : (Zpos m < P)%Z).
        { apply lt_IZR. apply (Rmult_lt_reg_r (/ IZR P));
            [apply Rinv_0_lt_compat; exact HPr|].
          rewrite Rinv_r by lra. exact Hlt. }
        assert (Hint : (Zpos m * 9007199254740992
                        <= (9007199254740992 - 1) * P)%Z).
        { destruct (Z.le_gt_cases P 9007199254740992); nia. }
        apply IZR_le in Hint. rewrite !mult_IZR, minus_IZR in Hint.
        apply (Rmult_le_reg_r (IZR P * 9007199254740992));
          [apply Rmult_lt_0_compat; lra|].
        replace (IZR (Zpos m) * / IZR P * (IZR P * 9007199254740992))%R
          with (IZR (Zpos m) * 9007199254740992)%R by (field; lra).
        replace ((1 - / 9007199254740992) * (IZR P * 9007199254740992))%R
          with ((9007199254740992 - 1) * IZR P)%R by (field; lra).
        exact Hint.
Qed.

(** The only binary64 value equal to 1. *)
Lemma unique_one (y : spec_float) :
  binary64 y -> SF2R y = 1%R -> y = one_sf.
Proof.
  intros [Hv Hf] H1.
  destruct y as [s| | |s m e]; simpl in Hf; try discriminate;
    unfold SF2R in H1.
  - lra.
  - destruct (valid_mantissa s m e Hv) as [Hm Hc].
    assert (Hmpos : (1 <= IZR (Zpos m))%R) by (apply IZR_le; lia).
    destruct s.
    + assert (0 < pow2 e)%R.
      { destruct e; simpl; [lra | apply IZR_lt, pow_pos_gt_0 |
                            apply Rinv_0_lt_compat, IZR_lt, pow_pos_gt_0]. }
      nra.
    + rewrite Rmult_1_l in H1. destruct e as [|p|p]; unfold pow2 in H1.
      * assert (Em : Zpos m = 1%Z) by (apply eq_IZR; lra).
        injection Em as ->. simpl in Hc. lia.
      * assert (2 <= IZR (Z.pow_pos 2 p))%R by (apply IZR_le, pow_pos_ge_2).
        nra.
      * set (P := Z.pow_pos 2 p) in *.
        assert (HP : (0 < P)%Z) by apply pow_pos_gt_0.
        assert (HPr : (0 < IZR P)%R) by (apply IZR_lt; exact HP).
        assert (Em : Zpos m = P).
        { apply eq_IZR. apply (Rmult_eq_reg_r (/ IZR P));
            [|apply Rgt_not_eq, Rinv_0_lt_compat; exact HPr].
          rewrite Rinv_r by lra. exact H1. }
        pose proof (digits2_pos_bounds m) as [Hlo Hhi].
        rewrite Em in Hlo, Hhi. unfold P in Hlo, Hhi.
        change (Z.pow_pos 2 p) with (2 ^ Zpos p)%Z in Hlo, Hhi.
        apply Z.pow_le_mono_r_iff in Hlo; [|lia|lia].
        apply Z.pow_lt_mono_r_iff in Hhi; [|lia|lia].
        assert (Ed : Zpos (digits2_pos m) = (Zpos p + 1)%Z) by lia.
        rewrite Ed in Hc.
        assert (Ep : p = 52%positive) by lia. subst p.
        unfold P in Em. unfold one_sf. f_equal.
        apply Pos2Z.inj. rewrite Em. reflexivity.
Qed.

Lemma one_sf_binary64 : binary64 one_sf.
Proof. split; reflexivity. Qed.

Lemma one_sf_value : SF2R one_sf = 1%R.
Proof.
  unfold one_sf, SF2R, pow2.
  change (Z.pow_pos 2 52) with 4503599627370496%Z. field.
Qed.

(** A real within [2^-54] below 1 rounds to 1.0. *)
Lemma round64_near_one (r : R) :
  (1 - / 18014398509481984 < r <= 1)%R -> round64 r = 1%float.
Proof.
  intros Hr.
  assert (Hb : (/ 18014398509481984 * 2 = / 9007199254740992)%R)
    by (field; lra).
  assert (Hpos : (0 < / 18014398509481984)%R)
    by (apply Rinv_0_lt_compat; lra).
  assert (Hnear : nearest64 r one_sf).
  { split; [exact one_sf_binary64|]. intros y Hy.
    rewrite one_sf_value.
    destruct (Rtotal_order (SF2R y) 1) as [Hlt|[Heq|Hgt]].
    - pose proof (spacing_below_one y Hy Hlt).
      rewrite (Rabs_left1 (SF2R y - r)) by lra.
      rewrite Rabs_right by lra. lra.
    - rewrite Heq. lra.
    - rewrite (Rabs_right (SF2R y - r)) by lra.
      rewrite Rabs_right by lra. lra. }
  assert (Huniq : forall x, nearest64 r x -> x = one_sf).
  { intros x [Hx Hmin]. apply unique_one; [exact Hx|].
    specialize (Hmin one_sf one_sf_binary64). rewrite one_sf_value in Hmin.
    rewrite (Rabs_right (1 - r)) in Hmin by lra.
    destruct (Rtotal_order (SF2R x) 1) as [Hlt|[Heq|Hgt]].
    - pose proof (spacing_below_one x Hx Hlt).
      rewrite (Rabs_left1 (SF2R x - r)) in Hmin by lra. lra.
    - exact Heq.
    - rewrite (Rabs_right (SF2R x - r)) in Hmin by lra. lra. }
  unfold round64.
  rewrite (Huniq _ (epsilon_spec (inhabits (S754_zero false)) (nearest64 r)
                      (ex_intro _ one_sf Hnear))).
  reflexivity.
Qed.

Lemma cos_lower (x : R) : (0 < x < 1)%R -> (1 - x * x / 2 <= cos x <= 1)%R.
Proof.
  intros Hx. split; [|apply COS_bound].
  assert (E : cos x = (1 - 2 * sin (x / 2) * sin (x / 2))%R)
    by (rewrite <- cos_2a_sin; f_equal; field).
  rewrite E.
  pose proof PI2_1. 
  assert (0 < sin (x / 2))%R by (apply sin_gt_0; lra).
  assert (sin (x / 2) < x / 2)%R by (apply sin_lt_x; lra).
  nra.
Qed.

Lemma node_argument :
  Prim2SF (pi64 * (0 + 0.5) / 0x1p28)%float
  = S754_finite false 7074237752028440 (-80).
Proof. vm_compute. reflexivity. Qed.

Lemma kpm_node64_is_one : kpm_node64 0x1p28%float 0%float = 1%float.
Proof.
  unfold kpm_node64, cos64, B2R. rewrite node_argument.
  apply round64_near_one.
  unfold SF2R, pow2. rewrite Rmult_1_l.
  change (Z.pow_pos 2 80) with 1208925819614629174706176%Z.
  set (x := (IZR 7074237752028440 * / IZR 1208925819614629174706176)%R).
  assert (Hx : (0 < x < / 134217728)%R).
  { unfold x. split.
    - apply Rmult_lt_0_compat; [lra|]. apply Rinv_0_lt_compat. lra.
    - apply (Rmult_lt_reg_r 1208925819614629174706176); [lra|].
      rewrite Rmult_assoc, Rinv_l by lra. lra. }
  assert (Hs : (/ 134217728 < 1)%R) by lra.
  pose proof (cos_lower x ltac:(lra)) as [Hlo Hhi].
  split; [|exact Hhi].
  assert (x * x < / 134217728 * / 134217728)%R by nra.
  lra.
Qed.

(** C7, as stated, fails on binary64 values: with [num_points = 2^28]
    the argument of the cosine at [j = 0] is so small that the nearest
    binary64 number to its cosine is 1.0 itself; the abscissa is on the
    boundary, the weight is zero and the division is a division by
    zero. *)
Lemma kpm_node64_on_boundary :
  kpm_node64 0x1p28%float 0%float = 1%float /\
  kpm_weight64 (kpm_node64 0x1p28%float 0%float) = 0%float /\
  (1 / kpm_weight64 (kpm_node64 0x1p28%float 0%float))%float = infinity.
Proof.
  rewrite kpm_node64_is_one. repeat split; vm_compute; reflexivity.
Qed.

(** C7, as amended.  In exact real arithmetic: whenever [apply_kernel]
    returns, with [num_points = extra_points + num_moments >= 1], it
    returns [num_points] abscissas,
    the [j]-th being [cos (PI (j + 0.5) / num_points)]; each lies
    strictly between -1 and 1, so each weight
    [PI sqrt (1 - (ek j)^2)] is strictly positive and the division by it
    is never a division by zero. *)
Theorem apply_kernel_nodes_interior (dctIII : list R -> list R)
    (moments : batch) (kernel : option (list R))
    (dimension num_moments num_vecs : nat) (extra_points : Z)
    (ek rho : list R) :
  apply_kernel dctIII moments kernel dimension num_moments num_vecs
    extra_points = Ok (ek, rho) ->
  (1 <= extra_points + Z.of_nat num_moments)%Z ->
  let num_points := Z.to_nat (extra_points + Z.of_nat num_moments) in
  length ek = num_points /\
  forall j, (j < num_points)%nat ->
    nth j ek 0%R = cos (PI * (INR j + 0.5) / INR num_points) /\
    (-1 < nth j ek 0 < 1)%R /\
    (0 < PI * sqrt (1 - nth j ek 0 ^ 2))%R /\
    (PI * sqrt (1 - nth j ek 0 ^ 2) <> 0)%R.
Proof.
  intros Happ Hnp num_points.
  destruct (apply_kernel_ek _ _ _ _ _ _ _ _ _ Happ) as (_ & ->).
  fold num_points.
  split; [rewrite length_map; apply length_seq|].
  intros j Hj. rewrite nth_map_seq by exact Hj.
  assert (Hint : (-1 < kpm_node num_points j < 1)%R)
    by (apply kpm_node_interior; [unfold num_points; lia | exact Hj]).
  pose proof (kpm_weight_pos _ Hint) as Hw. unfold kpm_weight in Hw.
  repeat split; try apply Hint; try exact Hw.
  apply Rgt_not_eq. exact Hw.
Qed.

Lemma apply_kernel_nodes_interior_witness :
  exists ek rho,
    apply_kernel (fun v => v) (Batch2 2 [example_probe]) None 2 2 1 0
      = Ok (ek, rho) /\
    length ek = 2%nat /\
    (-1 < nth 0 ek 0 < 1)%R.
Proof.
  exists (fst (reconstruct (fun v => v) [example_probe] None 2 2 1 0)),
         (snd (reconstruct (fun v => v) [example_probe] None 2 2 1 0)).
  assert (E : apply_kernel (fun v => v) (Batch2 2 [example_probe]) None
                2 2 1 0
              = Ok (fst (reconstruct (fun v => v) [example_probe] None 2 2 1 0),
                    snd (reconstruct (fun v => v) [example_probe] None 2 2 1 0))).
  { rewrite (apply_kernel_ok (fun v => v) [example_probe] None 2 2 1 0
               ltac:(repeat constructor) I ltac:(lia) (fun v => eq_refl)).
    reflexivity. }
  split; [exact E|].
  destruct (apply_kernel_nodes_interior _ _ _ _ _ _ _ _ _ E ltac:(lia))
    as [L Hj].
  split; [exact L|]. apply (Hj 0%nat). simpl. lia.
Defined.

(** ** The pipelines *)

(** C8.  [pykpm] does not depend on [epsilon]: two calls that differ in
    [epsilon] only give the same result, and so does a call in an
    environment whose [rescale_matrix] never sees an [epsilon]. *)
Theorem pykpm_epsilon_irrelevant {tensor : Type} (E : tf_env tensor)
    (H : matrix) (num_moments num_vecs : nat) (extra_points : Z)
    (precision : nat) (lmin lmax : option R) (epsilon epsilon' : R)
    (s : rng) :
  pykpm E H num_moments num_vecs extra_points precision lmin lmax epsilon s
  = pykpm E H num_moments num_vecs extra_points precision lmin lmax
      epsilon' s
  /\ pykpm E H num_moments num_vecs extra_points precision lmin lmax
       epsilon s
     = pykpm (default_epsilon E) H num_moments num_vecs extra_points
         precision lmin lmax epsilon' s.
Proof. split; reflexivity. Qed.

(** C9.  [cupykpm] does not depend on [precision]: two calls that differ
    in [precision] only give the same result, and so does a call in an
    environment where the cast is always to [complex64] and the kernel
    always of precision 32. *)
Theorem cupykpm_precision_irrelevant (E : cupy_env) (H : matrix)
    (num_moments num_vecs : nat) (extra_points : Z)
    (precision precision' : nat) (lmin lmax : option R) (epsilon : R)
    (s : rng) :
  cupykpm E H num_moments num_vecs extra_points precision lmin lmax
    epsilon s
  = cupykpm E H num_moments num_vecs extra_points precision' lmin lmax
      epsilon s
  /\ cupykpm E H num_moments num_vecs extra_points precision lmin lmax
       epsilon s
     = cupykpm (pinned_precision E) H num_moments num_vecs extra_points
         precision' lmin lmax epsilon s.
Proof. split; reflexivity. Qed.

(** C5 fails for [cupykpm]: whenever it returns, the pair is
    [(rho / scale_fact_a, ek * scale_fact_a + scale_fact_b)], where
    [scale_fact_a] and [scale_fact_b] are what [rescale_cupy] returned
    and [(ek, rho)] is what [apply_kernel] returned, [ek] being the
    nodes [cos (PI (j + 0.5) / num_points)]: the density comes first and
    the abscissas second. *)
Theorem cupykpm_returns_density_first (E : cupy_env) (H : matrix)
    (num_moments num_vecs : nat) (extra_points : Z) (precision : nat)
    (lmin lmax : option R) (epsilon : R) (s s' : rng)
    (first second : list R) :
  cupykpm E H num_moments num_vecs extra_points precision lmin lmax
    epsilon s = Ok ((first, second), s') ->
  let num_points := Z.to_nat (extra_points + Z.of_nat num_moments) in
  exists (lo hi : R) (H' : matrix) (scale_fact_a scale_fact_b : R)
         (moments : list (list C)) (ek rho : list R),
    bounds_or (cupy_get_bounds E) H lmin lmax = Ok (lo, hi) /\
    rescale_cupy E
      (mkMatrix (ncols H) (map (map (astype E complex64)) (rows H)))
      lo hi epsilon = Ok (H', scale_fact_a, scale_fact_b) /\
    moments_rows H' num_moments (length (rows H)) num_vecs s
      = Ok (moments, s') /\
    apply_kernel (cupy_dctIII E) (cp_array moments)
      (Some (cupy_jackson E num_moments 32)) (length (rows H))
      num_moments num_vecs extra_points = Ok (ek, rho) /\
    ek = map (fun j => cos (PI * (INR j + 0.5) / INR num_points))
             (seq 0 num_points) /\
    first = map (fun r => r / scale_fact_a)%R rho /\
    second = map (fun e => e * scale_fact_a + scale_fact_b)%R ek.
Proof.
  unfold cupykpm.
  destruct (bounds_or _ H lmin lmax) as [[lo hi]|e] eqn:Eb;
    [ok_step | discriminate].
  destruct (rescale_cupy E _ lo hi epsilon) as [[[H' a] b]|e] eqn:Er;
    [ok_step | discriminate].
  destruct (moments_rows H' num_moments (length (rows H)) num_vecs s)
    as [[moments s1]|e] eqn:Em; [ok_step | discriminate].
  destruct (apply_kernel _ _ _ _ _ _ _) as [[ek rho]|e] eqn:Eapp;
    [ok_step | discriminate].
  intros E0. cbv zeta. unfold rescale_kpm in E0. cbv iota zeta beta in E0.
  injection E0 as <- <- <-.
  exists lo, hi, H', a, b, moments, ek, rho.
  split; [reflexivity|]. split; [exact Er|]. split; [exact Em|].
  split; [exact Eapp|].
  destruct (apply_kernel_ek _ _ _ _ _ _ _ _ _ Eapp) as (_ & Eek).
  split; [exact Eek|]. split; reflexivity.
Qed.

Lemma example_moments_rows :
  exists mu s',
    moments_rows example_H 2 2 1 example_rng = Ok ([mu], s') /\
    length mu = 2%nat.
Proof.
  cbn [moments_rows].
  rewrite (get_moments_ok 2 example_H 2 example_rng
             (proj1 example_H_hermitian) ltac:(lia)).
  eexists. eexists. split; [reflexivity|]. reflexivity.
Qed.

Lemma example_cupykpm :
  exists mu s',
    length mu = 2%nat /\
    cupykpm example_env example_H 2 1 1 32 (Some (-1)%R) (Some 1%R)
      (1 / 100)%R example_rng
    = Ok ((snd (rescale_kpm
                  (fst (reconstruct (fun v => v) [mu] (Some [1; 1]%R) 2 2 1 1))
                  (snd (reconstruct (fun v => v) [mu] (Some [1; 1]%R) 2 2 1 1))
                  1%R 0%R),
           fst (rescale_kpm
                  (fst (reconstruct (fun v => v) [mu] (Some [1; 1]%R) 2 2 1 1))
                  (snd (reconstruct (fun v => v) [mu] (Some [1; 1]%R) 2 2 1 1))
                  1%R 0%R)), s').
Proof.
  destruct example_moments_rows as (mu & s' & Erows & Lmu).
  exists mu, s'. split; [exact Lmu|].
  unfold cupykpm. cbn [bounds_or example_env cupy_get_bounds rescale_cupy
                        cupy_jackson astype cupy_dctIII].
  ok_step. ok_step.
  change (mkMatrix (ncols example_H)
            (map (map (fun c : C => c)) (rows example_H)))
    with example_H.
  change (length (rows example_H)) with 2%nat.
  rewrite Erows. ok_step.
  change (cp_array [mu]) with (Batch2 (length mu) [mu]). rewrite Lmu.
  change (repeat 1%R 2) with [1%R; 1%R].
  rewrite (apply_kernel_ok (fun v => v) [mu] (Some [1; 1]%R) 2 2 1 1)
    by (try (repeat constructor; exact Lmu); try reflexivity; lia).
  reflexivity.
Qed.

Lemma cupykpm_returns_density_first_witness :
  exists first second s',
    cupykpm example_env example_H 2 1 1 32 (Some (-1)%R) (Some 1%R)
      (1 / 100)%R example_rng = Ok ((first, second), s') /\
    exists rho : list R,
      length rho = 3%nat /\
      first = map (fun r => r / 1)%R rho /\
      second
      = map (fun j => cos (PI * (INR j + 0.5) / INR 3) * 1 + 0)%R (seq 0 3).
Proof.
  destruct example_cupykpm as (mu & s' & Lmu & Ecall).
  eexists. eexists. eexists. split; [exact Ecall|].
  destruct (cupykpm_returns_density_first _ _ _ _ _ _ _ _ _ _ _ _ _ Ecall)
    as (lo & hi & H' & a & b & moments & ek & rho
        & Eb & Er & Em & Eapp & Eek & Efirst & Esecond).
  cbn [example_env rescale_cupy] in Er. injection Er as _ <- <-.
  exists rho. split; [|split].
  - pose proof (f_equal (@length R) Efirst) as L.
    unfold rescale_kpm, reconstruct in L. cbn [snd fst] in L.
    rewrite !length_map, length_seq in L. symmetry. exact L.
  - exact Efirst.
  - rewrite Esecond, Eek, map_map. reflexivity.
Defined.


(** ** More about [get_moments] *)

(** X1.  When the number of columns of the matrix is not the [dimension]
    the probe is drawn with, [get_moments] fails at the first product
    [H_rescaled.dot(alpha0)] with the array library's [ValueError],
    whatever the number of moments. *)
Theorem get_moments_dimension_mismatch (H : matrix)
    (num_moments dimension : nat) (s : rng) :
  ncols H <> dimension ->
  get_moments H num_moments dimension s = Raise ValueError.
Proof.
  intros Hne. unfold get_moments.
  pose proof (random_probe_length dimension s) as Lx.
  destruct (random_probe dimension s) as [x s']. simpl in Lx.
  unfold moments_of_probe, spdot. rewrite Lx.
  destruct (Nat.eqb_spec (ncols H) dimension); [contradiction | reflexivity].
Qed.

Lemma get_moments_dimension_mismatch_witness :
  get_moments example_H 4 3 example_rng = Raise ValueError.
Proof.
  apply (get_moments_dimension_mismatch example_H 4 3 example_rng).
  simpl. lia.
Defined.

Lemma get_moments_short (N : nat) (H : matrix) (num_moments : nat)
    (s : rng) :
  square N H -> (num_moments < 2)%nat ->
  get_moments H num_moments N s = Raise IndexError.
Proof.
  intros Hsq Hn. unfold get_moments.
  pose proof (random_probe_length N s) as Lx.
  destruct (random_probe N s) as [x s']. simpl in Lx.
  assert (LH : length (matvec H x) = N).
  { rewrite matvec_length. destruct Hsq as (_ & Hr & _). exact Hr. }
  unfold moments_of_probe.
  rewrite (spdot_ok N) by assumption. ok_step.
  rewrite dot1_same by reflexivity. ok_step.
  destruct num_moments as [|[|n]]; [reflexivity | | lia].
  rewrite setitem_ok by (rewrite zeros_length; lia). ok_step.
  rewrite dot1_same by lia. ok_step.
  reflexivity.
Qed.

(** X2.  Asked for fewer than two moments, [get_moments] on a square
    matrix of the given dimension fails with [IndexError]: the writes of
    [mu[0]] and [mu[1]] are unconditional. *)
Theorem get_moments_too_few (N : nat) (H : matrix) (num_moments : nat)
    (s : rng) :
  square N H -> (num_moments < 2)%nat ->
  get_moments H num_moments N s = Raise IndexError.
Proof. apply get_moments_short. Qed.

Lemma get_moments_too_few_witness :
  get_moments example_H 1 2 example_rng = Raise IndexError.
Proof.
  apply (get_moments_too_few 2 example_H 1 example_rng
           (proj1 example_H_hermitian)).
  lia.
Defined.

Lemma norm2_unit (x : list C) :
  Forall (fun c => (re c * re c + im c * im c = 1)%R) x ->
  norm2 x = INR (length x).
Proof.
  induction x as [|c x IH]; intros Hu.
  - reflexivity.
  - inversion Hu as [|c' x' Hc Hx]; subst c' x'.
    change (norm2 (c :: x))
      with (re c * re c + im c * im c + norm2 x)%R.
    rewrite IH by exact Hx. rewrite Hc.
    change (length (c :: x)) with (S (length x)). rewrite S_INR. lra.
Qed.

Lemma random_probe_unit (N : nat) (s : rng) :
  Forall (fun c => (re c * re c + im c * im c = 1)%R)
         (fst (random_probe N s)).
Proof.
  unfold random_probe, rand. simpl. apply Forall_map, Forall_map.
  apply Forall_forall. intros k _. simpl.
  pose proof (sin2_cos2 (2 * PI * s k)) as E. unfold Rsqr in E. lra.
Qed.

Lemma get_moments_shape (N : nat) (H : matrix) (num_moments : nat)
    (s : rng) :
  square N H -> (2 <= num_moments)%nat ->
  exists mu s',
    get_moments H num_moments N s = Ok (mu, s') /\
    length mu = num_moments /\ nth 0 mu C0 = RtoC (INR N).
Proof.
  intros Hsq Hn. rewrite (get_moments_ok N H num_moments s Hsq Hn).
  eexists. eexists. split; [reflexivity|].
  split; [rewrite length_map; apply length_seq|].
  rewrite nth_map_seq by lia.
  assert (Hh : (1 <= num_moments / 2)%nat)
    by (apply (Nat.div_le_lower_bound num_moments 2 1); lia).
  destruct (Nat.ltb_spec 0 (2 * (num_moments / 2))); [|lia].
  change (doubling_moment H (fst (random_probe N s)) 0)
    with (inner (fst (random_probe N s)) (fst (random_probe N s))).
  rewrite inner_self, norm2_unit by apply random_probe_unit.
  rewrite random_probe_length. reflexivity.
Qed.

(** X3.  The probe has entries of modulus one, so the moment of index 0
    that [get_moments] returns is the dimension. *)
Theorem get_moments_zeroth_is_dimension (N : nat) (H : matrix)
    (num_moments : nat) (s : rng) :
  square N H -> (2 <= num_moments)%nat ->
  exists mu s',
    get_moments H num_moments N s = Ok (mu, s') /\
    nth 0 mu C0 = RtoC (INR N).
Proof.
  intros Hsq Hn.
  destruct (get_moments_shape N H num_moments s Hsq Hn)
    as (mu & s' & E & _ & E0).
  exists mu, s'. split; assumption.
Qed.

Lemma get_moments_zeroth_is_dimension_witness :
  exists mu s',
    get_moments example_H 4 2 example_rng = Ok (mu, s') /\
    nth 0 mu C0 = RtoC (INR 2).
Proof.
  apply (get_moments_zeroth_is_dimension 2 example_H 4 example_rng
           (proj1 example_H_hermitian)).
  lia.
Defined.

Lemma direct_moment_real (N : nat) (H : matrix) (x : list C) (k : nat) :
  hermitian N H -> length x = N -> im (doubling_moment H x k) = 0%R.
Proof.
  intros Hh Hx.
  rewrite (doubling_is_direct N H x k Hh Hx). unfold direct_moment.
  rewrite (proj1 (poly_apply_chebT N H x (proj1 Hh) Hx k)).
  pose proof (proj1 (product_formula N H x Hh Hx k) 0%nat) as E.
  replace (dist k 0) with k in E by (unfold dist; lia).
  replace (k + 0)%nat with k in E by lia.
  rewrite cheb_vec_0 in E.
  destruct (cheb_vec_length N H x k (proj1 Hh) Hx) as [Lk _].
  rewrite (inner_conj_sym N (cheb_vec H x k) x Lk Hx) in E.
  apply (f_equal im) in E. simpl in E. lra.
Qed.

(** X4.  For a Hermitian matrix every moment [get_moments] returns is
    real: taking the real part afterwards loses nothing. *)
Theorem get_moments_real (N : nat) (H : matrix) (num_moments : nat)
    (s : rng) :
  hermitian N H -> (2 <= num_moments)%nat ->
  exists mu s',
    get_moments H num_moments N s = Ok (mu, s') /\
    Forall (fun c => im c = 0%R) mu.
Proof.
  intros Hh Hn. rewrite (get_moments_ok N H num_moments s (proj1 Hh) Hn).
  eexists. eexists. split; [reflexivity|].
  apply Forall_map, Forall_forall. intros k _.
  destruct (k <? 2 * (num_moments / 2)); [|reflexivity].
  apply (direct_moment_real N); [exact Hh | apply random_probe_length].
Qed.

Lemma get_moments_real_witness :
  exists mu s',
    get_moments example_H 5 2 example_rng = Ok (mu, s') /\
    Forall (fun c => im c = 0%R) mu.
Proof.
  apply (get_moments_real 2 example_H 5 example_rng example_H_hermitian).
  lia.
Defined.

(** ** The identity matrix *)

Lemma Csum_delta (f : nat -> C) (N i : nat) :
  (i < N)%nat ->
  Csum (fun j => Cmul (if i =? j then C1 else C0) (f j)) N = f i.
Proof.
  induction N as [|N IH]; intros Hi; [lia|]. simpl.
  destruct (Nat.eqb_spec i N) as [->|Hne].
  - rewrite (Csum_ext _ (fun _ => C0))
      by (intros j Hj; destruct (Nat.eqb_spec N j); [lia | Cring]).
    rewrite Csum_zero. Cring.
  - rewrite IH by lia. Cring.
Qed.

Lemma identity_square (N : nat) : square N (identity_matrix N).
Proof.
  unfold square, identity_matrix. simpl.
  split; [reflexivity|]. split; [rewrite length_map; apply length_seq|].
  apply Forall_map, Forall_forall. intros i _.
  rewrite length_map. apply length_seq.
Qed.

Lemma identity_entry (N i j : nat) :
  (i < N)%nat -> (j < N)%nat ->
  entry (identity_matrix N) i j = if i =? j then C1 else C0.
Proof.
  intros Hi Hj. unfold entry, identity_matrix. simpl.
  rewrite (nth_map_seq (fun i0 => map (fun j0 => if i0 =? j0 then C1 else C0)
                                      (seq 0 N)) N i []) by exact Hi.
  apply nth_map_seq. exact Hj.
Qed.

Lemma identity_hermitian (N : nat) : hermitian N (identity_matrix N).
Proof.
  split; [apply identity_square|]. intros i j Hi Hj.
  rewrite !identity_entry by assumption.
  rewrite (Nat.eqb_sym j i). destruct (i =? j); Cring.
Qed.

Lemma matvec_identity (N : nat) (x : list C) :
  length x = N -> matvec (identity_matrix N) x = x.
Proof.
  intros Hx. apply (vec_ext N).
  - rewrite matvec_length. apply identity_square.
  - exact Hx.
  - intros k Hk.
    rewrite (nth_matvec_Csum N) by (auto using identity_square).
    rewrite (Csum_ext _ (fun j => Cmul (if k =? j then C1 else C0)
                                       (nth j x C0)))
      by (intros j Hj; rewrite identity_entry by assumption; reflexivity).
    apply Csum_delta. exact Hk.
Qed.

Lemma cheb_vec_identity (N : nat) (x : list C) (k : nat) :
  length x = N ->
  cheb_vec (identity_matrix N) x k = x /\
  cheb_vec (identity_matrix N) x (S k) = x.
Proof.
  intros Hx. induction k as [|k [IH0 IH1]].
  - split; [reflexivity|]. rewrite cheb_vec_1. apply matvec_identity, Hx.
  - split; [exact IH1|]. rewrite cheb_vec_SS, IH0, IH1.
    rewrite matvec_identity by exact Hx.
    apply (vec_ext N); [| exact Hx |].
    + rewrite map2_length; rewrite vscale_length; lia.
    + intros j Hj. rewrite nth_map2 by (rewrite ?vscale_length; lia).
      rewrite nth_vscale. Cring.
Qed.

(** X5.  On the identity matrix every Chebyshev polynomial is the
    identity: with an even number of moments, every moment [get_moments]
    returns is the dimension. *)
Theorem get_moments_identity (N m : nat) (s : rng) :
  (1 <= m)%nat ->
  get_moments (identity_matrix N) (2 * m) N s
  = Ok (repeat (RtoC (INR N)) (2 * m), snd (random_probe N s)).
Proof.
  intros Hm.
  rewrite (get_moments_ok N) by (try apply identity_square; lia).
  f_equal. f_equal.
  set (x := fst (random_probe N s)).
  assert (Hx : length x = N) by apply random_probe_length.
  assert (Hxx : inner x x = RtoC (INR N)).
  { rewrite inner_self, norm2_unit by apply random_probe_unit.
    unfold x. rewrite random_probe_length. reflexivity. }
  apply (nth_ext _ _ C0 C0).
  - rewrite length_map, length_seq, repeat_length. reflexivity.
  - intros k Hk. rewrite length_map, length_seq in Hk.
    rewrite nth_map_seq by exact Hk. rewrite half_of_double.
    destruct (Nat.ltb_spec k (2 * m)); [|lia].
    rewrite (nth_indep _ C0 (RtoC (INR N))) by (rewrite repeat_length; lia).
    rewrite nth_repeat.
    rewrite (doubling_is_direct N _ x k (identity_hermitian N) Hx).
    unfold direct_moment.
    rewrite (proj1 (poly_apply_chebT N _ x (identity_square N) Hx k)).
    rewrite (proj1 (cheb_vec_identity N x k Hx)). exact Hxx.
Qed.

Lemma get_moments_identity_witness :
  get_moments (identity_matrix 3) (2 * 2) 3 example_rng
  = Ok (repeat (RtoC (INR 3)) (2 * 2), snd (random_probe 3 example_rng)).
Proof.
  apply (get_moments_identity 3 2 example_rng). lia.
Defined.

Lemma nth_map_in {A B : Type} (f : A -> B) (l : list A) (k : nat)
    (d : A) (d' : B) :
  (k < length l)%nat -> nth k (map f l) d' = f (nth k l d).
Proof.
  intros Hk. rewrite (nth_indep _ d' (f d)) by (rewrite length_map; exact Hk).
  apply map_nth.
Qed.

(** ** More about [rescale_kpm] *)

Section RescaleMore.

Open Scope R_scope.

(** X6.  Two rescalings in a row are one rescaling: scales multiply and
    the shift of the first is carried through the second. *)
Theorem rescale_kpm_compose (ek rho : list R) (a b a' b' : R) :
  a <> 0 -> a' <> 0 ->
  rescale_kpm (fst (rescale_kpm ek rho a b)) (snd (rescale_kpm ek rho a b))
              a' b'
  = rescale_kpm ek rho (a * a') (b * a' + b').
Proof.
  intros Ha Ha'. unfold rescale_kpm. simpl. rewrite !map_map. f_equal.
  - apply map_ext. intros e. ring.
  - apply map_ext. intros r. field. split; assumption.
Qed.

Lemma rescale_kpm_compose_witness :
  rescale_kpm (fst (rescale_kpm [1; 2] [3] 2 1))
              (snd (rescale_kpm [1; 2] [3] 2 1)) 4 5
  = rescale_kpm [1; 2] [3] (2 * 4) (1 * 4 + 5).
Proof.
  apply (rescale_kpm_compose [1; 2] [3] 2 1 4 5); lra.
Defined.

(** X7.  The rescaling keeps the mass under the curve: a density value
    times a difference of abscissas is the same before and after. *)
Theorem rescale_kpm_keeps_mass (ek rho : list R) (a b : R) (i j k : nat) :
  a <> 0 ->
  (i < length ek)%nat -> (j < length ek)%nat -> (k < length rho)%nat ->
  let ek' := fst (rescale_kpm ek rho a b) in
  let rho' := snd (rescale_kpm ek rho a b) in
  nth k rho' 0 * (nth i ek' 0 - nth j ek' 0)
  = nth k rho 0 * (nth i ek 0 - nth j ek 0).
Proof.
  intros Ha Hi Hj Hk. unfold rescale_kpm. simpl.
  rewrite (nth_map_in _ rho k 0 0) by exact Hk.
  rewrite (nth_map_in _ ek i 0 0), (nth_map_in _ ek j 0 0) by assumption.
  field. exact Ha.
Qed.

Lemma rescale_kpm_keeps_mass_witness :
  nth 0 (snd (rescale_kpm [1; 3] [5] 2 7)) 0
  * (nth 1 (fst (rescale_kpm [1; 3] [5] 2 7)) 0
     - nth 0 (fst (rescale_kpm [1; 3] [5] 2 7)) 0)
  = nth 0 [5] 0 * (nth 1 [1; 3] 0 - nth 0 [1; 3] 0).
Proof.
  apply (rescale_kpm_keeps_mass [1; 3] [5] 2 7 1 0 0);
    simpl; try lia; lra.
Defined.

(** X8.  With a positive scale the rescaling keeps the order of the
    abscissas, with a negative scale it reverses it. *)
Theorem rescale_kpm_order (ek rho : list R) (a b : R) (i j : nat) :
  (i < length ek)%nat -> (j < length ek)%nat ->
  nth i ek 0 < nth j ek 0 ->
  let ek' := fst (rescale_kpm ek rho a b) in
  (0 < a -> nth i ek' 0 < nth j ek' 0) /\
  (a < 0 -> nth j ek' 0 < nth i ek' 0).
Proof.
  intros Hi Hj Hlt. unfold rescale_kpm. simpl.
  rewrite (nth_map_in _ ek i 0 0), (nth_map_in _ ek j 0 0) by assumption.
  split; intros Ha; nra.
Qed.

Lemma rescale_kpm_order_witness :
  nth 0 (fst (rescale_kpm [1; 3] [5] 2 7)) 0
  < nth 1 (fst (rescale_kpm [1; 3] [5] 2 7)) 0.
Proof.
  apply (proj1 (rescale_kpm_order [1; 3] [5] 2 7 0 1
                  ltac:(simpl; lia) ltac:(simpl; lia) ltac:(simpl; lra))).
  lra.
Defined.

End RescaleMore.

(** ** More about [apply_kernel] *)

Lemma kpm_angle_range (P j : nat) :
  (j < P)%nat ->
  (0 < PI * (INR j + 0.5) / INR P < PI)%R.
Proof.
  intros Hj.
  assert (HPpos : (0 < INR P)%R) by (apply lt_0_INR; lia).
  assert (Hj0 : (0 <= INR j)%R) by apply pos_INR.
  assert (Hj1 : (INR j + 1 <= INR P)%R).
  { rewrite <- S_INR. apply le_INR. lia. }
  pose proof PI_RGT_0 as Hpi. split.
  - apply Rdiv_lt_0_compat; [|exact HPpos]. apply Rmult_lt_0_compat; lra.
  - apply (Rmult_lt_reg_r (INR P)); [exact HPpos|].
    unfold Rdiv. rewrite Rmult_assoc, Rinv_l by lra. nra.
Qed.

Lemma kpm_node_decreasing (P i j : nat) :
  (i < j)%nat -> (j < P)%nat -> (kpm_node P j < kpm_node P i)%R.
Proof.
  intros Hij Hj. unfold kpm_node.
  pose proof (kpm_angle_range P i ltac:(lia)) as Ri.
  pose proof (kpm_angle_range P j Hj) as Rj.
  apply cos_decreasing_1; try lra.
  assert (HPpos : (0 < INR P)%R) by (apply lt_0_INR; lia).
  assert (Hlt : (INR i < INR j)%R) by (apply lt_INR; exact Hij).
  pose proof PI_RGT_0 as Hpi.
  unfold Rdiv. apply Rmult_lt_compat_r; [apply Rinv_0_lt_compat; exact HPpos|].
  nra.
Qed.

Lemma kpm_node_mirror (P j : nat) :
  (j < P)%nat -> kpm_node P (P - 1 - j) = (- kpm_node P j)%R.
Proof.
  intros Hj. unfold kpm_node. rewrite <- Rtrigo_facts.cos_pi_minus.
  f_equal.
  assert (HPpos : (0 < INR P)%R) by (apply lt_0_INR; lia).
  rewrite !minus_INR by lia. simpl INR.
  replace 0.5%R with (1 / 2)%R by lra. field. lra.
Qed.

(** X9.  In exact real arithmetic, the abscissas [apply_kernel] returns
    are strictly decreasing. *)
Theorem apply_kernel_abscissas_decreasing (dctIII : list R -> list R)
    (moments : batch) (kernel : option (list R))
    (dimension num_moments num_vecs : nat) (extra_points : Z)
    (ek rho : list R) (i j : nat) :
  apply_kernel dctIII moments kernel dimension num_moments num_vecs
    extra_points = Ok (ek, rho) ->
  (i < j)%nat -> (j < length ek)%nat ->
  (nth j ek 0 < nth i ek 0)%R.
Proof.
  intros Happ Hij Hj.
  destruct (apply_kernel_ek _ _ _ _ _ _ _ _ _ Happ) as (_ & E).
  subst ek. rewrite length_map, length_seq in Hj.
  rewrite !nth_map_seq by lia.
  apply kpm_node_decreasing; assumption.
Qed.

(** X10.  In exact real arithmetic, the abscissas [apply_kernel] returns
    are symmetric about zero: the one at [num_points - 1 - j] is the
    opposite of the one at [j]. *)
Theorem apply_kernel_abscissas_mirror (dctIII : list R -> list R)
    (moments : batch) (kernel : option (list R))
    (dimension num_moments num_vecs : nat) (extra_points : Z)
    (ek rho : list R) (j : nat) :
  apply_kernel dctIII moments kernel dimension num_moments num_vecs
    extra_points = Ok (ek, rho) ->
  (j < length ek)%nat ->
  nth (length ek - 1 - j) ek 0%R = (- nth j ek 0)%R.
Proof.
  intros Happ Hj.
  destruct (apply_kernel_ek _ _ _ _ _ _ _ _ _ Happ) as (_ & E).
  subst ek. rewrite length_map, length_seq in Hj |- *.
  rewrite !nth_map_seq by lia.
  apply kpm_node_mirror. exact Hj.
Qed.

Lemma example_apply_kernel :
  apply_kernel (fun v => v) (Batch2 2 [example_probe]) None 2 2 1 1
  = Ok (reconstruct (fun v => v) [example_probe] None 2 2 1 1).
Proof.
  apply apply_kernel_ok;
    [repeat constructor | exact I | lia | reflexivity].
Qed.

Lemma apply_kernel_abscissas_decreasing_witness :
  (nth 2 (fst (reconstruct (fun v => v) [example_probe] None 2 2 1 1)) 0
   < nth 0 (fst (reconstruct (fun v => v) [example_probe] None 2 2 1 1)) 0)%R.
Proof.
  apply (apply_kernel_abscissas_decreasing (fun v => v)
           (Batch2 2 [example_probe]) None 2 2 1 1 _
           (snd (reconstruct (fun v => v) [example_probe] None 2 2 1 1))
           0 2).
  - rewrite example_apply_kernel. reflexivity.
  - lia.
  - simpl. lia.
Defined.

Lemma apply_kernel_abscissas_mirror_witness :
  nth (length (fst (reconstruct (fun v => v) [example_probe] None 2 2 1 1))
       - 1 - 0)
      (fst (reconstruct (fun v => v) [example_probe] None 2 2 1 1)) 0%R
  = (- nth 0 (fst (reconstruct (fun v => v) [example_probe] None 2 2 1 1))
         0)%R.
Proof.
  apply (apply_kernel_abscissas_mirror (fun v => v)
           (Batch2 2 [example_probe]) None 2 2 1 1 _
           (snd (reconstruct (fun v => v) [example_probe] None 2 2 1 1)) 0).
  - rewrite example_apply_kernel. reflexivity.
  - simpl. lia.
Defined.

Lemma col_sum_perm (rows rows' : list (list C)) (k : nat) :
  Permutation rows rows' -> col_sum rows k = col_sum rows' k.
Proof.
  intros Hp. induction Hp; simpl; lra.
Qed.

Lemma Forall_perm_length (w : nat) (rows rows' : list (list C)) :
  Permutation rows rows' ->
  Forall (fun r => length r = w) rows ->
  Forall (fun r => length r = w) rows'.
Proof.
  intros Hp Hl. rewrite Forall_forall in *. intros r Hr.
  apply Hl. apply (Permutation_in r (Permutation_sym Hp) Hr).
Qed.

(** X11.  In exact real arithmetic, where the sum over the probes does
    not depend on their order, the order of the rows of the batch, one
    row per probe, does not matter to [apply_kernel]. *)
Theorem apply_kernel_rows_permute (dctIII : list R -> list R)
    (width : nat) (rows rows' : list (list C)) (kernel : option (list R))
    (dimension num_moments num_vecs : nat) (extra_points : Z) :
  Forall (fun r => length r = width) rows ->
  Permutation rows rows' ->
  apply_kernel dctIII (Batch2 width rows) kernel dimension num_moments
    num_vecs extra_points
  = apply_kernel dctIII (Batch2 width rows') kernel dimension num_moments
      num_vecs extra_points.
Proof.
  intros Hl Hp. unfold apply_kernel.
  rewrite (sum_real_axis0_rows width rows Hl).
  rewrite (sum_real_axis0_rows width rows'
             (Forall_perm_length width rows rows' Hp Hl)).
  rewrite (map_ext (col_sum rows) (col_sum rows'))
    by (intros k; apply col_sum_perm; exact Hp).
  reflexivity.
Qed.

Lemma apply_kernel_rows_permute_witness :
  apply_kernel (fun v => v) (Batch2 2 [[C0; C1]; [C1; C0]]) None 2 2 2 1
  = apply_kernel (fun v => v) (Batch2 2 [[C1; C0]; [C0; C1]]) None 2 2 2 1.
Proof.
  apply (apply_kernel_rows_permute (fun v => v) 2
           [[C0; C1]; [C1; C0]] [[C1; C0]; [C0; C1]] None 2 2 2 1).
  - repeat constructor.
  - apply perm_swap.
Defined.

Lemma map2_mult_ones (v : list R) :
  map2 Rmult v (repeat 1%R (length v)) = v.
Proof.
  induction v as [|x v IH]; simpl; [reflexivity|].
  rewrite IH. f_equal. lra.
Qed.

(** X12.  Passing no kernel is the same as passing a kernel of ones. *)
Theorem apply_kernel_none_is_ones (dctIII : list R -> list R)
    (rows : list (list C)) (dimension num_moments num_vecs : nat)
    (extra_points : Z) :
  Forall (fun r => length r = num_moments) rows ->
  apply_kernel dctIII (Batch2 num_moments rows) None dimension num_moments
    num_vecs extra_points
  = apply_kernel dctIII (Batch2 num_moments rows)
      (Some (repeat 1%R num_moments)) dimension num_moments num_vecs
      extra_points.
Proof.
  intros Hl. unfold apply_kernel.
  rewrite (sum_real_axis0_rows num_moments rows Hl). cbn [arr_div arr_mul].
  set (v := map _ (map _ (map _ (seq 0 num_moments)))).
  assert (Lv : length v = num_moments)
    by (unfold v; rewrite !length_map; apply length_seq).
  rewrite broadcast2_same by (rewrite repeat_length; exact Lv).
  replace (repeat 1%R num_moments) with (repeat 1%R (length v))
    by (rewrite Lv; reflexivity).
  rewrite map2_mult_ones. reflexivity.
Qed.

Lemma apply_kernel_none_is_ones_witness :
  apply_kernel (fun v => v) (Batch2 2 [example_probe]) None 2 2 1 1
  = apply_kernel (fun v => v) (Batch2 2 [example_probe])
      (Some (repeat 1%R 2)) 2 2 1 1.
Proof.
  apply (apply_kernel_none_is_ones (fun v => v) [example_probe] 2 2 1 1).
  repeat constructor.
Defined.

(** X13.  A kernel whose length is neither the number of moments nor 1
    does not broadcast against the moments: [apply_kernel] fails with
    [ValueError]. *)
Theorem apply_kernel_kernel_mismatch (dctIII : list R -> list R)
    (rows : list (list C)) (ker : list R)
    (dimension num_moments num_vecs : nat) (extra_points : Z) :
  Forall (fun r => length r = num_moments) rows ->
  (2 <= num_moments)%nat ->
  length ker <> num_moments -> length ker <> 1%nat ->
  apply_kernel dctIII (Batch2 num_moments rows) (Some ker) dimension
    num_moments num_vecs extra_points = Raise ValueError.
Proof.
  intros Hl Hn Hk Hk1. unfold apply_kernel.
  rewrite (sum_real_axis0_rows num_moments rows Hl). cbn [arr_div arr_mul].
  set (v := map _ (map _ (map _ (seq 0 num_moments)))).
  assert (Lv : length v = num_moments)
    by (unfold v; rewrite !length_map; apply length_seq).
  unfold broadcast2.
  destruct (Nat.eqb_spec (length v) (length ker)); [lia|].
  destruct v as [|x [|x' v]]; simpl in Lv; try lia.
  destruct ker as [|y [|y' ker]]; simpl in Hk1; try lia; reflexivity.
Qed.

Lemma apply_kernel_kernel_mismatch_witness :
  apply_kernel (fun v => v) (Batch2 2 [example_probe])
    (Some [1; 1; 1]%R) 2 2 1 1 = Raise ValueError.
Proof.
  apply (apply_kernel_kernel_mismatch (fun v => v) [example_probe]
           [1; 1; 1]%R 2 2 1 1);
    [repeat constructor | lia | simpl; lia | simpl; lia].
Defined.

(** X14.  A batch whose rows have neither [num_moments] entries nor one
    entry does not fit the slice [mu_ext[0:num_moments]]: with a
    non-negative [extra_points], and a kernel of the rows' length or
    none, [apply_kernel] fails with [ValueError]. *)
Theorem apply_kernel_width_mismatch (dctIII : list R -> list R)
    (width : nat) (rows : list (list C)) (kernel : option (list R))
    (dimension num_moments num_vecs : nat) (extra_points : Z) :
  Forall (fun r => length r = width) rows ->
  match kernel with Some ker => length ker = width | None => True end ->
  width <> num_moments -> width <> 1%nat ->
  (0 <= extra_points)%Z ->
  apply_kernel dctIII (Batch2 width rows) kernel dimension num_moments
    num_vecs extra_points = Raise ValueError.
Proof.
  intros Hl Hker Hw Hw1 Hep. unfold apply_kernel.
  rewrite (sum_real_axis0_rows width rows Hl). cbn [arr_div].
  set (v := map _ (map _ (map _ (seq 0 width)))).
  assert (Lv : length v = width)
    by (unfold v; rewrite !length_map; apply length_seq).
  assert (Hset : forall m : list R, length m = width ->
            set_prefix (repeat 0%R (Z.to_nat (extra_points
                                               + Z.of_nat num_moments)))
                       num_moments (Vec m) = Raise ValueError).
  { intros m Lm. unfold set_prefix. rewrite repeat_length.
    rewrite Nat.min_l by lia.
    destruct (Nat.eqb_spec (length m) num_moments); [lia|].
    destruct m as [|x [|x' m]]; simpl in Lm; try lia; reflexivity. }
  destruct kernel as [ker|].
  - cbn [arr_mul]. rewrite broadcast2_same by lia. do 2 ok_step.
    rewrite real_zeros_ok by lia. ok_step.
    rewrite Hset by (rewrite map2_length; lia). reflexivity.
  - ok_step. rewrite real_zeros_ok by lia. ok_step.
    rewrite Hset by exact Lv. reflexivity.
Qed.

Lemma apply_kernel_width_mismatch_witness :
  apply_kernel (fun v => v) (Batch2 2 [example_probe]) None 2 4 1 1
  = Raise ValueError.
Proof.
  apply (apply_kernel_width_mismatch (fun v => v) 2 [example_probe]
           None 2 4 1 1);
    [repeat constructor | exact I | lia | lia | lia].
Defined.

(** X15.  In exact real arithmetic, after the rescaling with a positive
    scale, the abscissas that [apply_kernel] returned lie strictly
    inside the interval [(scale_b - scale_a, scale_b + scale_a)]. *)
Theorem rescaled_abscissas_in_interval (dctIII : list R -> list R)
    (moments : batch) (kernel : option (list R))
    (dimension num_moments num_vecs : nat) (extra_points : Z)
    (ek rho : list R) (scale_fact_a scale_fact_b : R) :
  apply_kernel dctIII moments kernel dimension num_moments num_vecs
    extra_points = Ok (ek, rho) ->
  (0 < scale_fact_a)%R ->
  Forall (fun e => (scale_fact_b - scale_fact_a < e
                    < scale_fact_b + scale_fact_a)%R)
         (fst (rescale_kpm ek rho scale_fact_a scale_fact_b)).
Proof.
  intros Happ Ha.
  destruct (apply_kernel_ek _ _ _ _ _ _ _ _ _ Happ) as (_ & E).
  subst ek. unfold rescale_kpm. simpl. rewrite map_map.
  apply Forall_map, Forall_forall. intros j Hj. apply in_seq in Hj.
  pose proof (kpm_node_interior
                (Z.to_nat (extra_points + Z.of_nat num_moments)) j
                ltac:(lia) ltac:(lia)) as Hint.
  split; nra.
Qed.

Lemma rescaled_abscissas_in_interval_witness :
  Forall (fun e => (5 - 2 < e < 5 + 2)%R)
    (fst (rescale_kpm
            (fst (reconstruct (fun v => v) [example_probe] None 2 2 1 1))
            (snd (reconstruct (fun v => v) [example_probe] None 2 2 1 1))
            2%R 5%R)).
Proof.
  apply (rescaled_abscissas_in_interval (fun v => v)
           (Batch2 2 [example_probe]) None 2 2 1 1).
  - rewrite example_apply_kernel. reflexivity.
  - lra.
Defined.

(** ** More about [cupykpm] *)

Lemma moments_rows_ok (N : nat) (H : matrix) (n num_vecs : nat) (s : rng) :
  square N H -> (2 <= n)%nat ->
  exists rows s',
    moments_rows H n N num_vecs s = Ok (rows, s') /\
    length rows = num_vecs /\
    Forall (fun mu => length mu = n /\ nth 0 mu C0 = RtoC (INR N)) rows.
Proof.
  intros Hsq Hn. revert s.
  induction num_vecs as [|nv IH]; intros s.
  - exists [], s. repeat split. constructor.
  - destruct (get_moments_shape N H n s Hsq Hn) as (mu & s1 & E1 & L1 & Z1).
    destruct (IH s1) as (rows & s2 & E2 & L2 & F2).
    exists (mu :: rows), s2. split; [|split].
    + cbn [moments_rows]. rewrite E1. ok_step. cbv iota beta.
      rewrite E2. ok_step. reflexivity.
    + simpl. lia.
    + constructor; [split; assumption | exact F2].
Qed.

Lemma moments_rows_short (N : nat) (H : matrix) (n num_vecs : nat) (s : rng) :
  square N H -> (n < 2)%nat -> (1 <= num_vecs)%nat ->
  moments_rows H n N num_vecs s = Raise IndexError.
Proof.
  intros Hsq Hn Hnv. destruct num_vecs as [|nv]; [lia|].
  cbn [moments_rows]. rewrite (get_moments_short N H n s Hsq Hn).
  reflexivity.
Qed.

Lemma cp_array_rows (n : nat) (rows : list (list C)) :
  (1 <= length rows)%nat ->
  Forall (fun mu => length mu = n) rows ->
  cp_array rows = Batch2 n rows.
Proof.
  intros Hl Hf. destruct rows as [|r rows]; simpl in Hl; [lia|].
  inversion Hf as [|r' rows' Hr _]; subst r' rows'.
  simpl. rewrite Hr. reflexivity.
Qed.

Lemma col_sum_const (rows : list (list C)) (k : nat) (c : R) :
  Forall (fun mu => re (nth k mu C0) = c) rows ->
  col_sum rows k = (INR (length rows) * c)%R.
Proof.
  induction rows as [|r rows IH]; intros Hf.
  - simpl. lra.
  - inversion Hf as [|r' rows' Hr Hrest]; subst r' rows'.
    change (col_sum (r :: rows) k)
      with (re (nth k r C0) + col_sum rows k)%R.
    rewrite IH by exact Hrest. rewrite Hr.
    change (length (r :: rows)) with (S (length rows)). rewrite S_INR. lra.
Qed.

(** X16.  The moments [cupykpm] collects, one row per probe, summed over
    the probes and divided by the number of probes and by the dimension
    as [apply_kernel] does in its first two lines, have the value 1 at
    index 0: the density is normalised. *)
Theorem zeroth_moment_normalised (N : nat) (H : matrix)
    (num_moments num_vecs : nat) (s : rng) :
  square N H -> (2 <= num_moments)%nat ->
  (1 <= num_vecs)%nat -> (1 <= N)%nat ->
  exists rows s' v,
    moments_rows H num_moments N num_vecs s = Ok (rows, s') /\
    arr_div (arr_div (sum_real_axis0 (cp_array rows)) (INR num_vecs))
            (INR N) = Vec v /\
    length v = num_moments /\ nth 0 v 0%R = 1%R.
Proof.
  intros Hsq Hn Hnv HN.
  destruct (moments_rows_ok N H num_moments num_vecs s Hsq Hn)
    as (rows & s' & E & L & F).
  assert (Fl : Forall (fun mu => length mu = num_moments) rows)
    by (eapply Forall_impl; [|exact F]; simpl; intros mu Hmu; apply Hmu).
  assert (F0 : Forall (fun mu => re (nth 0 mu C0) = INR N) rows).
  { eapply Forall_impl; [|exact F]. simpl. intros mu [_ Hmu].
    rewrite Hmu. reflexivity. }
  exists rows, s'. eexists. split; [exact E|].
  rewrite (cp_array_rows num_moments) by (try assumption; lia).
  rewrite (sum_real_axis0_rows num_moments rows Fl). cbn [arr_div].
  split; [reflexivity|]. split.
  - rewrite !length_map. apply length_seq.
  - rewrite !map_map. rewrite nth_map_seq by lia.
    rewrite (col_sum_const rows 0 (INR N) F0), L.
    assert (Hv : (0 < INR num_vecs)%R) by (apply lt_0_INR; lia).
    assert (Hd : (0 < INR N)%R) by (apply lt_0_INR; lia).
    field. split; lra.
Qed.

Lemma zeroth_moment_normalised_witness :
  exists rows s' v,
    moments_rows example_H 4 2 3 example_rng = Ok (rows, s') /\
    arr_div (arr_div (sum_real_axis0 (cp_array rows)) (INR 3)) (INR 2)
      = Vec v /\
    length v = 4%nat /\ nth 0 v 0%R = 1%R.
Proof.
  apply (zeroth_moment_normalised 2 example_H 4 3 example_rng
           (proj1 example_H_hermitian)); lia.
Defined.

(** X17.  When the bounds are there (given, or found by [get_bounds]),
    [rescale_cupy] returns a square matrix of the dimension of [H], the
    kernel has [num_moments] weights, the transform keeps the length,
    [num_moments >= 2], [num_vecs >= 1] and [extra_points >= 0], then
    [cupykpm] raises nothing and both arrays it returns have
    [num_moments + extra_points] entries. *)
Theorem cupykpm_returns (E : cupy_env) (H H' : matrix)
    (num_moments num_vecs : nat) (extra_points : Z) (precision : nat)
    (lmin lmax : option R) (epsilon lo hi a b : R) (s : rng) :
  bounds_or (cupy_get_bounds E) H lmin lmax = Ok (lo, hi) ->
  rescale_cupy E
    (mkMatrix (ncols H) (map (map (astype E complex64)) (rows H)))
    lo hi epsilon = Ok (H', a, b) ->
  square (length (rows H)) H' ->
  (forall v, length (cupy_dctIII E v) = length v) ->
  length (cupy_jackson E num_moments 32) = num_moments ->
  (2 <= num_moments)%nat -> (1 <= num_vecs)%nat ->
  (0 <= extra_points)%Z ->
  exists first second s',
    cupykpm E H num_moments num_vecs extra_points precision lmin lmax
      epsilon s = Ok ((first, second), s') /\
    length first = (num_moments + Z.to_nat extra_points)%nat /\
    length second = (num_moments + Z.to_nat extra_points)%nat.
Proof.
  intros Hb Hr Hsq Hdct Hker Hn Hnv Hep.
  destruct (moments_rows_ok (length (rows H)) H' num_moments num_vecs s
              Hsq Hn) as (rws & s' & Er & Lr & Fr).
  assert (Fl : Forall (fun mu => length mu = num_moments) rws)
    by (eapply Forall_impl; [|exact Fr]; simpl; intros mu Hmu; apply Hmu).
  unfold cupykpm. rewrite Hb. ok_step. cbv iota beta.
  rewrite Hr. ok_step. cbv iota beta.
  rewrite Er. ok_step. cbv iota beta.
  rewrite (cp_array_rows num_moments) by (try assumption; lia).
  rewrite (apply_kernel_ok (cupy_dctIII E) rws
             (Some (cupy_jackson E num_moments 32)) (length (rows H))
             num_moments num_vecs extra_points Fl Hker Hep Hdct).
  ok_step. unfold reconstruct, rescale_kpm. cbv iota beta zeta.
  eexists. eexists. eexists. split; [reflexivity|].
  rewrite !length_map, !length_seq. lia.
Qed.

Lemma cupykpm_returns_witness :
  exists first second s',
    cupykpm example_env example_H 2 1 1 32 (Some (-1)%R) (Some 1%R)
      (1 / 100)%R example_rng = Ok ((first, second), s') /\
    length first = (2 + Z.to_nat 1)%nat /\
    length second = (2 + Z.to_nat 1)%nat.
Proof.
  apply (cupykpm_returns example_env example_H example_H 2 1 1 32
           (Some (-1)%R) (Some 1%R) (1 / 100)%R (-1)%R 1%R 1%R 0%R
           example_rng);
    try reflexivity; try lia.
  exact (proj1 example_H_hermitian).
Defined.

(** X18.  With fewer than two moments and at least one probe, [cupykpm]
    fails with [IndexError] once the bounds and the rescaled matrix are
    there: the failure of [get_moments] goes through. *)
Theorem cupykpm_too_few_moments (E : cupy_env) (H H' : matrix)
    (num_moments num_vecs : nat) (extra_points : Z) (precision : nat)
    (lmin lmax : option R) (epsilon lo hi a b : R) (s : rng) :
  bounds_or (cupy_get_bounds E) H lmin lmax = Ok (lo, hi) ->
  rescale_cupy E
    (mkMatrix (ncols H) (map (map (astype E complex64)) (rows H)))
    lo hi epsilon = Ok (H', a, b) ->
  square (length (rows H)) H' ->
  (num_moments < 2)%nat -> (1 <= num_vecs)%nat ->
  cupykpm E H num_moments num_vecs extra_points precision lmin lmax
    epsilon s = Raise IndexError.
Proof.
  intros Hb Hr Hsq Hn Hnv.
  unfold cupykpm. rewrite Hb. ok_step. cbv iota beta.
  rewrite Hr. ok_step. cbv iota beta.
  rewrite (moments_rows_short (length (rows H)) H' num_moments num_vecs s
             Hsq Hn Hnv).
  reflexivity.
Qed.

Lemma cupykpm_too_few_moments_witness :
  cupykpm example_env example_H 1 1 1 32 (Some (-1)%R) (Some 1%R)
    (1 / 100)%R example_rng = Raise IndexError.
Proof.
  apply (cupykpm_too_few_moments example_env example_H example_H 1 1 1 32
           (Some (-1)%R) (Some 1%R) (1 / 100)%R (-1)%R 1%R 1%R 0%R
           example_rng);
    try reflexivity; try lia.
  exact (proj1 example_H_hermitian).
Defined.

(** X19.  In both pipelines a bound given alone is not used: the two
    bounds are taken from [get_bounds] as soon as one of them is
    missing. *)
Theorem single_bound_ignored {tensor : Type} (E : cupy_env)
    (T : tf_env tensor) (H : matrix) (num_moments num_vecs : nat)
    (extra_points : Z) (precision : nat) (lo hi epsilon : R) (s : rng) :
  (cupykpm E H num_moments num_vecs extra_points precision (Some lo) None
     epsilon s
   = cupykpm E H num_moments num_vecs extra_points precision None None
       epsilon s
   /\ cupykpm E H num_moments num_vecs extra_points precision None (Some hi)
        epsilon s
      = cupykpm E H num_moments num_vecs extra_points precision None None
          epsilon s)
  /\ (pykpm T H num_moments num_vecs extra_points precision (Some lo) None
        epsilon s
      = pykpm T H num_moments num_vecs extra_points precision None None
          epsilon s
      /\ pykpm T H num_moments num_vecs extra_points precision None
           (Some hi) epsilon s
         = pykpm T H num_moments num_vecs extra_points precision None None
             epsilon s).
Proof. repeat split. Qed.

(** ** How the results for different numbers of moments relate *)

Lemma half_of_double_succ (m : nat) : ((2 * m + 1) / 2 = m)%nat.
Proof. symmetry. apply (Nat.div_unique (2 * m + 1) 2 m 1); lia. Qed.

(** X20.  An odd number of moments [2 m + 1] gives what [2 m] gives,
    followed by one zero. *)
Theorem get_moments_odd_is_even_then_zero (N : nat) (H : matrix) (m : nat)
    (s : rng) :
  square N H -> (1 <= m)%nat ->
  exists mu s',
    get_moments H (2 * m) N s = Ok (mu, s') /\
    get_moments H (2 * m + 1) N s = Ok (mu ++ [C0], s').
Proof.
  intros Hsq Hm.
  rewrite !(get_moments_ok N) by (try assumption; lia).
  rewrite half_of_double, half_of_double_succ.
  replace (2 * m + 1)%nat with (S (2 * m)) by lia.
  rewrite seq_S, map_app. cbn [map].
  rewrite Nat.add_0_l, Nat.ltb_irrefl.
  eexists. eexists. split; reflexivity.
Qed.

Lemma get_moments_odd_is_even_then_zero_witness :
  exists mu s',
    get_moments example_H (2 * 2) 2 example_rng = Ok (mu, s') /\
    get_moments example_H (2 * 2 + 1) 2 example_rng = Ok (mu ++ [C0], s').
Proof.
  apply (get_moments_odd_is_even_then_zero 2 example_H 2 example_rng
           (proj1 example_H_hermitian)).
  lia.
Defined.

Lemma firstn_seq_le (n start len : nat) :
  (n <= len)%nat -> firstn n (seq start len) = seq start n.
Proof.
  revert start len. induction n as [|n IH]; intros start len Hle.
  - reflexivity.
  - destruct len as [|len]; [lia|]. simpl. f_equal. apply IH. lia.
Qed.

(** X21.  The moments are nested: asking for more of them, with the same
    probe, extends the sequence and leaves its beginning as it was. *)
Theorem get_moments_prefix (N : nat) (H : matrix) (m m' : nat) (s : rng) :
  square N H -> (1 <= m)%nat -> (m <= m')%nat ->
  exists mu mu' s',
    get_moments H (2 * m) N s = Ok (mu, s') /\
    get_moments H (2 * m') N s = Ok (mu', s') /\
    firstn (2 * m) mu' = mu.
Proof.
  intros Hsq Hm Hle.
  rewrite !(get_moments_ok N) by (try assumption; lia).
  eexists. eexists. eexists. split; [reflexivity|]. split; [reflexivity|].
  rewrite firstn_map, firstn_seq_le by lia.
  rewrite !half_of_double.
  apply map_ext_in. intros k Hk. apply in_seq in Hk.
  destruct (Nat.ltb_spec k (2 * m')), (Nat.ltb_spec k (2 * m));
    try reflexivity; lia.
Qed.

Lemma get_moments_prefix_witness :
  exists mu mu' s',
    get_moments example_H (2 * 1) 2 example_rng = Ok (mu, s') /\
    get_moments example_H (2 * 3) 2 example_rng = Ok (mu', s') /\
    firstn (2 * 1) mu' = mu.
Proof.
  apply (get_moments_prefix 2 example_H 1 3 example_rng
           (proj1 example_H_hermitian)); lia.
Defined.

(** X22.  The abscissas [apply_kernel] returns depend on
    [extra_points + num_moments] only: not on the moments, the kernel,
    the transform, the dimension or the number of probes. *)
Theorem apply_kernel_abscissas_fixed
    (dctIII dctIII' : list R -> list R) (moments moments' : batch)
    (kernel kernel' : option (list R))
    (dimension dimension' num_moments num_moments' num_vecs num_vecs' : nat)
    (extra_points extra_points' : Z) (ek ek' rho rho' : list R) :
  apply_kernel dctIII moments kernel dimension num_moments num_vecs
    extra_points = Ok (ek, rho) ->
  apply_kernel dctIII' moments' kernel' dimension' num_moments' num_vecs'
    extra_points' = Ok (ek', rho') ->
  (extra_points + Z.of_nat num_moments
   = extra_points' + Z.of_nat num_moments')%Z ->
  ek = ek'.
Proof.
  intros H1 H2 Hp.
  destruct (apply_kernel_ek _ _ _ _ _ _ _ _ _ H1) as (_ & ->).
  destruct (apply_kernel_ek _ _ _ _ _ _ _ _ _ H2) as (_ & ->).
  rewrite Hp. reflexivity.
Qed.

Lemma example_apply_kernel_wide :
  apply_kernel (fun v => v) (Batch2 3 [[C0; C1; C0]]) (Some [1; 1; 1]%R)
    5 3 7 0
  = Ok (reconstruct (fun v => v) [[C0; C1; C0]] (Some [1; 1; 1]%R) 5 3 7 0).
Proof.
  apply apply_kernel_ok;
    [repeat constructor | reflexivity | lia | reflexivity].
Qed.

Lemma apply_kernel_abscissas_fixed_witness :
  fst (reconstruct (fun v => v) [example_probe] None 2 2 1 1)
  = fst (reconstruct (fun v => v) [[C0; C1; C0]] (Some [1; 1; 1]%R) 5 3 7 0).
Proof.
  apply (apply_kernel_abscissas_fixed (fun v => v) (fun v => v)
           (Batch2 2 [example_probe]) (Batch2 3 [[C0; C1; C0]])
           None (Some [1; 1; 1]%R) 2 5 2 3 1 7 1 0 _ _
           (snd (reconstruct (fun v => v) [example_probe] None 2 2 1 1))
           (snd (reconstruct (fun v => v) [[C0; C1; C0]]
                   (Some [1; 1; 1]%R) 5 3 7 0))).
  - rewrite example_apply_kernel. reflexivity.
  - rewrite example_apply_kernel_wide. reflexivity.
  - reflexivity.
Defined.

Section RescaleInverse.

Open Scope R_scope.

(** X23.  A rescaling with [scale_a <> 0] is undone, for the abscissas
    and for the density, by the rescaling with scale [1 / scale_a] and
    shift [- scale_b / scale_a]. *)
Theorem rescale_kpm_undo (ek rho : list R) (a b : R) :
  a <> 0 ->
  rescale_kpm (fst (rescale_kpm ek rho a b)) (snd (rescale_kpm ek rho a b))
              (1 / a) (- b / a)
  = (ek, rho).
Proof.
  intros Ha. unfold rescale_kpm. simpl. rewrite !map_map. f_equal.
  - rewrite <- (map_id ek) at 2. apply map_ext. intros e. field. exact Ha.
  - rewrite <- (map_id rho) at 2. apply map_ext. intros r. field. exact Ha.
Qed.

Lemma rescale_kpm_undo_witness :
  rescale_kpm (fst (rescale_kpm [1; 2] [3] 2 1))
              (snd (rescale_kpm [1; 2] [3] 2 1)) (1 / 2) (- 1 / 2)
  = ([1; 2], [3]).
Proof.
  apply (rescale_kpm_undo [1; 2] [3] 2 1). lra.
Defined.

End RescaleInverse.
